(** * farm_ng.oak.camera_client: the rate limiter and the Oak camera client

    A shallow embedding of [py/farm_ng/oak/camera_client.py].

    Conventions of the embedding.
    - Readings of [time.monotonic()] are rationals (seconds).  One
      synchronous call reads the clock once: the readings taken inside
      [next_call_wait] and inside [wrapper] during the same call of
      [async_wrapper] are the same instant.
    - Python objects that are shared by reference (the [CameraSettings]
      messages, the client instances) live in a store indexed by
      locations; attributes that hold such an object hold its location.
    - A call that may raise returns an [outcome] (or a [result]) next
      to the state it leaves behind.
    - [asyncio]'s [call_later] is a list of pending timer handles kept by
      due time.  A handle runs no earlier than its due time, and only when
      the loop regains control: synchronous code, such as a call of a
      rate-limited method, may run while a handle is overdue. *)

From Stdlib Require Import QArith Lqa List Bool Ascii.
From stdpp Require Import base strings pretty gmap.
Import ListNotations.

Set Implicit Arguments.

(** ** Clock readings *)

Definition Qlt_bool (x y : Q) : bool := negb (Qle_bool y x).

(** ** Outcomes of calls *)

(** How a call of a Python function ends. *)
Inductive outcome := Returned | Raised.

(** ** class RateLimiter *)

Section RateLimiter.
(** [Call]: what one invocation passes, the pair [( *args, **kargs )];
    [self.args] and [self.kargs] are always assigned together and are
    kept as one field.  [St]: the state the wrapped function acts on. *)
Context {Call St : Type}.

Record RateLimiter := mkRateLimiter {
  last_call : option Q;
  period : Q;
  outstanding_call : bool;
  args : option Call
}.

(** [RateLimiter.__init__] *)
Definition RateLimiter_init (period : Q) : RateLimiter :=
  {| last_call := None;
     period := period;
     outstanding_call := false;
     args := None |}.

Definition set_last_call (t : Q) (self : RateLimiter) : RateLimiter :=
  {| last_call := Some t;
     period := period self;
     outstanding_call := outstanding_call self;
     args := args self |}.

Definition set_outstanding_call (b : bool) (self : RateLimiter) : RateLimiter :=
  {| last_call := last_call self;
     period := period self;
     outstanding_call := b;
     args := args self |}.

Definition set_args (a : Call) (self : RateLimiter) : RateLimiter :=
  {| last_call := last_call self;
     period := period self;
     outstanding_call := outstanding_call self;
     args := Some a |}.

(** [RateLimiter.wrapper]: the two assignments come first, the call of
    [func] last; unpacking [self.args] while it is still [None] raises. *)
Definition wrapper (func : Call -> St -> St * outcome) (now : Q)
    (self : RateLimiter) (st : St) : RateLimiter * (St * outcome) :=
  let self := set_last_call now self in
  let self := set_outstanding_call false self in
  match args self with
  | Some a => (self, func a st)
  | None => (self, (st, Raised))
  end.

(** [RateLimiter.next_call_wait] *)
Definition next_call_wait (now : Q) (self : RateLimiter) : Q :=
  match last_call self with
  | None => - (1)
  | Some last => period self - (now - last)
  end.

(** The condition under which a call at [now] takes the first branch
    of [async_wrapper]: the limiter has not run yet, or the wait that
    is left is negative. *)
Definition runs_at_once (now : Q) (self : RateLimiter) : Prop :=
  last_call self = None
  \/ exists last, last_call self = Some last
                  /\ (period self - (now - last) < 0)%Q.

(** What one call of [async_wrapper] leaves behind: the limiter, the
    state of the wrapped function, the delay handed to
    [loop.call_later] if a handle was created, and the outcome of
    [func] if it ran inside the call. *)
Record invoked := mkInvoked {
  limiter_after : RateLimiter;
  state_after : St;
  call_later : option Q;
  ran : option outcome
}.

(** The closure [async_wrapper] returned by [RateLimiter.__call__]. *)
Definition async_wrapper (func : Call -> St -> St * outcome) (now : Q)
    (a : Call) (self : RateLimiter) (st : St) : invoked :=
  let self := set_args a self in
  let delay := next_call_wait now self in
  if Qlt_bool delay 0 then
    let '(self, (st, o)) := wrapper func now self st in
    {| limiter_after := self; state_after := st;
       call_later := None; ran := Some o |}
  else if negb (outstanding_call self) then
    {| limiter_after := set_outstanding_call true self; state_after := st;
       call_later := Some delay; ran := None |}
  else
    {| limiter_after := self; state_after := st;
       call_later := None; ran := None |}.

End RateLimiter.

Arguments RateLimiter : clear implicits.
Arguments invoked : clear implicits.

(** ** One rate-limited function on the event loop *)

Section EventLoop.
Context {Call St : Type}.
Variable func : Call -> St -> St * outcome.

(** The wrapped function, observed: every call is written down with
    the clock reading of the step that made it and the arguments it
    received. *)
Definition observed (now : Q) (a : Call) (s : St * list (Q * Call))
    : (St * list (Q * Call)) * outcome :=
  let '(st, o) := func a (fst s) in
  ((st, snd s ++ [(now, a)]), o).

(** The limiter, the state of the wrapped function with the calls seen
    so far, the due times of the pending [call_later] handles (earliest
    first), and the last clock reading. *)
Record loop := mkLoop {
  limiter : RateLimiter Call;
  target : St * list (Q * Call);
  timers : list Q;
  clock : Q
}.

Definition executions (w : loop) : list (Q * Call) := snd (target w).

Fixpoint insert_timer (due : Q) (ts : list Q) : list Q :=
  match ts with
  | [] => [due]
  | t :: ts' => if Qlt_bool due t then due :: ts else t :: insert_timer due ts'
  end.

Inductive event :=
| Invoke (now : Q) (a : Call)   (* the decorated function is called *)
| Fire (now : Q).               (* the loop runs the earliest handle *)

Definition event_time (e : event) : Q :=
  match e with Invoke now _ => now | Fire now => now end.

(** One event.  [None]: the event cannot happen (the monotonic clock
    would run backwards, or no handle is due). *)
Definition step (w : loop) (e : event) : option loop :=
  if Qle_bool (clock w) (event_time e) then
    match e with
    | Invoke now a =>
        let r := async_wrapper (observed now) now a (limiter w) (target w) in
        Some {| limiter := limiter_after r;
                target := state_after r;
                timers := match call_later r with
                          | Some delay => insert_timer (now + delay) (timers w)
                          | None => timers w
                          end;
                clock := now |}
    | Fire now =>
        match timers w with
        | due :: rest =>
            if Qle_bool due now then
              let '(l, (s, _)) := wrapper (observed now) now (limiter w) (target w) in
              Some {| limiter := l; target := s; timers := rest; clock := now |}
            else None
        | [] => None
        end
    end
  else None.

Fixpoint run (w : loop) (es : list event) : option loop :=
  match es with
  | [] => Some w
  | e :: es' =>
      match step w e with
      | Some w' => run w' es'
      | None => None
      end
  end.

(** A fresh limiter decorating [func], nothing scheduled. *)
Definition decorated (period : Q) (st : St) (t0 : Q) : loop :=
  {| limiter := RateLimiter_init period;
     target := (st, []);
     timers := [];
     clock := t0 |}.

(** A handle is overdue at [now]: due strictly earlier, not yet run. *)
Definition overdue (now : Q) (w : loop) : bool :=
  match timers w with
  | due :: _ => Qlt_bool due now
  | [] => false
  end.

(** No call of the decorated function finds a handle overdue. *)
Fixpoint timely (w : loop) (es : list event) : bool :=
  match es with
  | [] => true
  | e :: es' =>
      match e with
      | Invoke now _ => negb (overdue now w)
      | Fire _ => true
      end
      && match step w e with
         | Some w' => timely w' es'
         | None => true
         end
  end.

(** The arguments of the latest call among the events, [acc] if there
    is none. *)
Fixpoint latest_args (acc : option Call) (es : list event) : option Call :=
  match es with
  | [] => acc
  | Invoke _ a :: es' => latest_args (Some a) es'
  | Fire _ :: es' => latest_args acc es'
  end.

(** Consecutive executions are at least [p] apart. *)
Fixpoint spaced (p : Q) (log : list (Q * Call)) : Prop :=
  match log with
  | [] => True
  | (t, _) :: rest =>
      match rest with
      | [] => True
      | (t', _) :: _ => (t + p <= t')%Q
      end /\ spaced p rest
  end.

(** The flag tells whether a handle is pending, there is at most one,
    and it is due one period after the last execution. *)
Definition single_handle (w : loop) : Prop :=
  match timers w with
  | [] => outstanding_call (limiter w) = false
  | [due] =>
      outstanding_call (limiter w) = true
      /\ (exists a, args (limiter w) = Some a)
      /\ exists last, last_call (limiter w) = Some last
                      /\ (due == last + period (limiter w))%Q
  | _ => False
  end.

(** The invariant of runs in which no call finds a handle overdue. *)
Definition timely_inv (p : Q) (w : loop) : Prop :=
  period (limiter w) = p
  /\ single_handle w
  /\ spaced p (executions w)
  /\ forall t a, last (executions w) = Some (t, a) ->
       exists l, last_call (limiter w) = Some l /\ (t <= l)%Q.

End EventLoop.

(** ** Messages and the service stub *)

(** Modelled from the spec: the generated message class
    [oak_pb2.CameraSettings] is not among the sources.  The source sets
    [auto_exposure]; the spec (data model) adds the exposure and gain
    parameters the service accepts. *)
Record CameraSettings := mkCameraSettings {
  auto_exposure : bool;
  exposure : Z;
  gain : Z
}.

(** Modelled from the spec: [service_pb2.ReplyStatus] is generated code;
    the source and the spec only tell [OK] from every other status. *)
Inductive ReplyStatus := OK | NOT_OK (code : Z).

Definition ReplyStatus_eqb (a b : ReplyStatus) : bool :=
  match a, b with
  | OK, OK => true
  | NOT_OK x, NOT_OK y => (x =? y)%Z
  | _, _ => false
  end.

Record CameraControlRequest := mkCameraControlRequest {
  request_stereo_settings : CameraSettings;
  request_rgb_settings : CameraSettings
}.

Record CameraControlReply := mkCameraControlReply {
  status : ReplyStatus;
  stereo_settings : CameraSettings;
  rgb_settings : CameraSettings
}.

Record StreamFramesRequest := mkStreamFramesRequest { every_n : Z }.

(** Modelled from the spec: [farm_ng.service.service.ServiceState] and the
    enum behind it are not among the sources.  These are the values the
    data model of the spec lists; [UNKNOWN] is the one it gives to the
    state built without a reply. *)
Inductive ServiceState := UNKNOWN | STARTING | RUNNING | STOPPED | ERROR.

(** Modelled from the spec: the failures that the error taxonomy calls
    connection errors; each of them ends the stub call with
    [grpc.RpcError]. *)
Inductive rpc_failure :=
| ConnectionError | TimedOut | UnreachablePeer | ServerNotStarted.

Inductive exn :=
| RpcError (why : rpc_failure)   (* grpc.RpcError *)
| OtherException.                (* any exception that is not one *)

(** How an awaited call ends. *)
Inductive result (T : Type) :=
| Return (v : T)
| Raise (e : exn).
Arguments Return {T} v.
Arguments Raise {T} e.

(** ** class OakCameraClient *)

Definition loc := positive.

Record OakCameraClientConfig := mkOakCameraClientConfig {
  port : Z;
  address : string
}.

(** An instance: the two settings attributes hold references to
    [CameraSettings] objects. *)
Record OakCameraClient := mkOakCameraClient {
  config : OakCameraClientConfig;
  _mono_camera_settings : loc;
  _rgb_camera_settings : loc;
  needs_update : bool
}.

(** The objects reachable from the clients. *)
Record store := mkStore {
  heap : gmap loc CameraSettings;
  instances : gmap loc OakCameraClient
}.

Definition set_needs_update (b : bool) (c : OakCameraClient) : OakCameraClient :=
  {| config := config c;
     _mono_camera_settings := _mono_camera_settings c;
     _rgb_camera_settings := _rgb_camera_settings c;
     needs_update := b |}.

Definition set_rgb_camera_settings (r : loc) (c : OakCameraClient) : OakCameraClient :=
  {| config := config c;
     _mono_camera_settings := _mono_camera_settings c;
     _rgb_camera_settings := r;
     needs_update := needs_update c |}.

Definition set_mono_camera_settings (r : loc) (c : OakCameraClient) : OakCameraClient :=
  {| config := config c;
     _mono_camera_settings := r;
     _rgb_camera_settings := _rgb_camera_settings c;
     needs_update := needs_update c |}.

(** [oak_pb2.CameraSettings(...)]: a new object. *)
Definition new_settings (v : CameraSettings) (h : gmap loc CameraSettings)
    : gmap loc CameraSettings * loc :=
  let r := fresh (dom h) in (<[r := v]> h, r).

(** [OakCameraClient.__init__] *)
Definition OakCameraClient_init (cfg : OakCameraClientConfig) (m : store)
    : store * loc :=
  let '(h, mono) := new_settings (mkCameraSettings true 0 0) (heap m) in
  let '(h, rgb) := new_settings (mkCameraSettings true 0 0) h in
  let self := fresh (dom (instances m)) in
  ({| heap := h;
      instances := <[self := {| config := cfg;
                                _mono_camera_settings := mono;
                                _rgb_camera_settings := rgb;
                                needs_update := false |}]> (instances m) |},
   self).

(** The properties [rgb_settings] and [mono_settings], dereferenced. *)
Definition rgb_settings_of (self : loc) (m : store) : option CameraSettings :=
  c ← instances m !! self; heap m !! _rgb_camera_settings c.

Definition mono_settings_of (self : loc) (m : store) : option CameraSettings :=
  c ← instances m !! self; heap m !! _mono_camera_settings c.

(** [OakCameraClient.settings_reply]: [CopyFrom] writes into the object
    the attribute refers to, mono first. *)
Definition settings_reply (self : loc) (reply : CameraControlReply) (m : store)
    : store :=
  match instances m !! self with
  | Some c =>
      if ReplyStatus_eqb (status reply) OK then
        let h := <[_mono_camera_settings c := stereo_settings reply]> (heap m) in
        let h := <[_rgb_camera_settings c := rgb_settings reply]> h in
        {| heap := h; instances := instances m |}
      else m
  | None => m
  end.

Section GetState.
(** [farm_ng.service.service.ServiceState] is not among the sources; what
    the state query needs of it is taken as given.  [Value]: the values
    of the state enum, the numbers that have a name.  [default]: the
    value held by [ServiceState()], the state built without a reply.
    The data model of the spec has [ServiceState] and [UNKNOWN] for
    them. *)
Context {Value : Type}.
Variable default : Value.

(** The number in the [state] field of a reply message: a value of the
    enum, or a number that is no value of it. *)
Inductive state_field :=
| EnumValue (v : Value)
| NoEnumValue (n : Z).

Record GetServiceStateReply := mkGetServiceStateReply { state : state_field }.

(** [ServiceState(proto)] and [ServiceState()]: the object holds the
    number it is given, the default when it is given none. *)
Definition ServiceState_new (proto : option state_field) : state_field :=
  match proto with
  | Some v => v
  | None => EnumValue default
  end.

(** [ServiceState.name]: the lookup of the number held among the values
    of the enum.  [None]: the number is no value of the enum and the
    lookup raises. *)
Definition ServiceState_name (st : state_field) : option Value :=
  match st with
  | EnumValue v => Some v
  | NoEnumValue _ => None
  end.

(** [OakCameraClient.get_state]; the argument is how
    [await self.stub.getServiceState(...)] ends: it raises, or it returns
    an object, a reply message or ([None]) something that is no reply
    message and has no attribute [state].  Only [grpc.RpcError] is
    caught, and only around the first two statements; [state.name] is
    evaluated for the call of the logger after the handler. *)
Definition get_state (getServiceState : result (option GetServiceStateReply))
    : result state_field :=
  let tried :=
    match getServiceState with
    | Return (Some response) => Return (ServiceState_new (Some (state response)))
    | Return None => Raise OtherException
    | Raise (RpcError _) => Return (ServiceState_new None)
    | Raise e => Raise e
    end in
  match tried with
  | Return st =>
      match ServiceState_name st with
      | Some _ => Return st
      | None => Raise OtherException
      end
  | Raise e => Raise e
  end.

End GetState.

(** [OakCameraClient.send_settings]; [cameraControl] is how the service
    answers a request.  [None]: [self] is no client of this store. *)
Definition send_settings (self : loc)
    (cameraControl : CameraControlRequest -> result CameraControlReply)
    (m : store) : option (store * CameraControlRequest * result CameraControlReply) :=
  c ← instances m !! self;
  mono ← heap m !! _mono_camera_settings c;
  rgb ← heap m !! _rgb_camera_settings c;
  let request := {| request_stereo_settings := mono;
                    request_rgb_settings := rgb |} in
  let m' := {| heap := heap m;
               instances := <[self := set_needs_update false c]> (instances m) |} in
  Some (m', request, cameraControl request).

(** The bodies of the two decorated methods; a call passes
    [(self, settings)]. *)
Definition update_rgb_settings (a : loc * loc) (m : store) : store * outcome :=
  let '(self, rgb_settings) := a in
  match instances m !! self with
  | Some c =>
      let c := set_needs_update true c in
      let c := set_rgb_camera_settings rgb_settings c in
      ({| heap := heap m; instances := <[self := c]> (instances m) |}, Returned)
  | None => (m, Raised)
  end.

Definition update_mono_settings (a : loc * loc) (m : store) : store * outcome :=
  let '(self, mono_settings) := a in
  match instances m !! self with
  | Some c =>
      let c := set_needs_update true c in
      let c := set_mono_camera_settings mono_settings c in
      ({| heap := heap m; instances := <[self := c]> (instances m) |}, Returned)
  | None => (m, Raised)
  end.

(** Modelled from the spec: the generated stub
    [oak_pb2_grpc.OakServiceStub] is not among the sources; by the spec
    every [streamFrames] call opens one server-driven stream.  The
    streams opened so far are listed in order; a handle is the position
    of its stream. *)
Definition stub_streamFrames (request : StreamFramesRequest)
    (streams : list StreamFramesRequest) : list StreamFramesRequest * nat :=
  (streams ++ [request], length streams).

(** [OakCameraClient.stream_frames] *)
Definition stream_frames (n : Z) (streams : list StreamFramesRequest)
    : list StreamFramesRequest * nat :=
  stub_streamFrames {| every_n := n |} streams.

(** ** The class object and its decorated methods *)

Inductive channel := Rgb | Mono.

(** The class body runs [RateLimiter(period=1)] once per decorated
    method: the two limiters belong to the class, and every instance
    reaches them through the class attributes. *)
Record system := mkSystem {
  rgb_limiter : RateLimiter (loc * loc);
  mono_limiter : RateLimiter (loc * loc);
  memory : store;
  handles : list (Q * channel)
}.

Definition OakCameraClient_class : system :=
  {| rgb_limiter := RateLimiter_init 1;
     mono_limiter := RateLimiter_init 1;
     memory := {| heap := ∅; instances := ∅ |};
     handles := [] |}.

(** The limiter that [self.update_rgb_settings] / [self.update_mono_settings]
    goes through: attribute lookup on any instance finds the class
    attribute. *)
Definition limiter_of (self : loc) (ch : channel) (s : system)
    : RateLimiter (loc * loc) :=
  match ch with
  | Rgb => rgb_limiter s
  | Mono => mono_limiter s
  end.

Definition set_limiter (ch : channel) (l : RateLimiter (loc * loc))
    (m : store) (hs : list (Q * channel)) (s : system) : system :=
  match ch with
  | Rgb => {| rgb_limiter := l; mono_limiter := mono_limiter s;
              memory := m; handles := hs |}
  | Mono => {| rgb_limiter := rgb_limiter s; mono_limiter := l;
               memory := m; handles := hs |}
  end.

Definition body (ch : channel) : loc * loc -> store -> store * outcome :=
  match ch with
  | Rgb => update_rgb_settings
  | Mono => update_mono_settings
  end.

(** [self.update_rgb_settings(settings)] and
    [self.update_mono_settings(settings)] at time [now]. *)
Definition call_update (ch : channel) (now : Q) (self settings : loc)
    (s : system) : system :=
  let r := async_wrapper (body ch) now (self, settings)
             (limiter_of self ch s) (memory s) in
  set_limiter ch (limiter_after r) (state_after r)
    (match call_later r with
     | Some delay => handles s ++ [((now + delay)%Q, ch)]
     | None => handles s
     end) s.

Fixpoint take_handle (ch : channel) (hs : list (Q * channel))
    : list (Q * channel) :=
  match hs with
  | [] => []
  | (due, ch') :: hs' =>
      match ch, ch' with
      | Rgb, Rgb | Mono, Mono => hs'
      | _, _ => (due, ch') :: take_handle ch hs'
      end
  end.

(** The loop runs a pending handle of the limiter of [ch] at time [now]. *)
Definition run_handle (ch : channel) (now : Q) (s : system) : system :=
  let l := match ch with Rgb => rgb_limiter s | Mono => mono_limiter s end in
  let '(l, (m, _)) := wrapper (body ch) now l (memory s) in
  set_limiter ch l m (take_handle ch (handles s)) s.

(** [OakCameraClient(config)] *)
Definition new_client (cfg : OakCameraClientConfig) (s : system) : system * loc :=
  let '(m, self) := OakCameraClient_init cfg (memory s) in
  ({| rgb_limiter := rgb_limiter s; mono_limiter := mono_limiter s;
      memory := m; handles := handles s |}, self).

(** ** Concrete inputs used by the examples below *)

(** A wrapped function that does nothing, and one that always raises. *)
Definition noop (a : nat) (s : unit) : unit * outcome := (s, Returned).
Definition failing (a : nat) (s : unit) : unit * outcome := (s, Raised).

(** Three calls less than one period apart; the handle created by the
    second call (due at 1) has not run when the third call arrives. *)
Definition late_handle_trace : list (@event nat) :=
  [Invoke 0 7%nat; Invoke (1 # 2) 8%nat; Invoke (11 # 10) 9%nat].

(** A limiter that executed at time 0. *)
Definition executed_at_0 : RateLimiter nat :=
  {| last_call := Some 0%Q; period := 1%Q;
     outstanding_call := false; args := Some 7%nat |}.

(** One client, as built by [OakCameraClient(config)]. *)
Definition localhost : OakCameraClientConfig :=
  {| port := 50051; address := "localhost" |}.

Definition one_client : store * loc :=
  OakCameraClient_init localhost {| heap := ∅; instances := ∅ |}.

(** The same client after the body of [update_rgb_settings] ran with
    its own rgb object: the settings are as built, [needs_update] is set. *)
Definition dirty_client : store * loc :=
  let '(m, self) := one_client in
  match instances m !! self with
  | Some c => (fst (update_rgb_settings (self, _rgb_camera_settings c) m), self)
  | None => (m, self)
  end.

(** A service that accepts the request and echoes the settings it
    applied, the exposure adjusted. *)
Definition service_adjusts (request : CameraControlRequest)
    : result CameraControlReply :=
  Return {| status := OK;
            stereo_settings := request_stereo_settings request;
            rgb_settings :=
              {| auto_exposure := auto_exposure (request_rgb_settings request);
                 exposure := 33;
                 gain := gain (request_rgb_settings request) |} |}.

(** A service that answers with a status other than [OK]. *)
Definition service_rejects (request : CameraControlRequest)
    : result CameraControlReply :=
  Return {| status := NOT_OK 2;
            stereo_settings := request_stereo_settings request;
            rgb_settings := request_rgb_settings request |}.

(** Two clients of the one class. *)
Definition two_clients : system * (loc * loc) :=
  let '(s, a) := new_client localhost OakCameraClient_class in
  let '(s, b) := new_client localhost s in
  (s, (a, b)).

(** One client whose rgb update ran at time 0 and was called again a
    quarter of a period later: that second call is pending. *)
Definition pending_rgb_update : system * loc :=
  let '(s, self) := new_client localhost OakCameraClient_class in
  let s := call_update Rgb 0 self 1%positive s in
  let s := call_update Rgb (1 # 4) self 2%positive s in
  (s, self).

(** ** Calls, bursts and the remaining client code *)

(** The calls among the events, in order, each with its clock reading. *)
Fixpoint invocations {Call : Type} (es : list (@event Call)) : list (Q * Call) :=
  match es with
  | [] => []
  | Invoke now a :: es' => (now, a) :: invocations es'
  | Fire _ :: es' => invocations es'
  end.

(** A burst of calls: clock readings that do not decrease, starting no
    earlier than [lo], none later than [hi]. *)
Fixpoint burst_within {Call : Type} (lo hi : Q) (calls : list (Q * Call)) : Prop :=
  match calls with
  | [] => True
  | (t, _) :: rest => (lo <= t)%Q /\ (t <= hi)%Q /\ burst_within t hi rest
  end.

(** The arguments of the last call of a burst, [a] if it is empty. *)
Fixpoint last_args {Call : Type} (a : Call) (calls : list (Q * Call)) : Call :=
  match calls with
  | [] => a
  | (_, a') :: rest => last_args a' rest
  end.

(** The clock reading of the last call of a burst, [t] if it is empty. *)
Fixpoint last_time {Call : Type} (t : Q) (calls : list (Q * Call)) : Q :=
  match calls with
  | [] => t
  | (t', _) :: rest => last_time t' rest
  end.

(** Nothing is pending unnoticed: the flag is set only while a handle
    is pending, a handle is pending only after a call, and when none is
    pending the last execution received the arguments the limiter holds. *)
Definition settled {Call St : Type} (w : loop (Call:=Call) (St:=St)) : Prop :=
  (outstanding_call (limiter w) = true -> timers w <> [])
  /\ (args (limiter w) = None -> timers w = [] /\ executions w = [])
  /\ (timers w = [] -> forall a, args (limiter w) = Some a ->
        exists t, last (executions w) = Some (t, a)).

(** [OakCameraClient.server_address]: the f-string
    [f"{self.config.address}:{self.config.port}"], the port in decimal. *)
Definition server_address (cfg : OakCameraClientConfig) : string :=
  address cfg +:+ ":" +:+ pretty (port cfg).

(** The string holds no colon. *)
Fixpoint no_colon (s : string) : bool :=
  match s with
  | EmptyString => true
  | String c s' => negb (Ascii.eqb c ":"%char) && no_colon s'
  end.

(** ** The camera component of the pipeline example *)

(** [AmigaCamera] of [py/examples/camera_pipeline/main.py], as far as
    [forward] uses it: the stream handle ([None] until the first run) and
    the image last written to the output parameter [img].  [read h] is
    how [await self.stream.read()] ends on handle [h] in this run, already
    projected to [response.frame.rgb.image_data]; [imdecode] stands for
    [np.frombuffer] followed by [cv2.imdecode]. *)
Section AmigaCamera.
Context {Image : Type}.
Variable imdecode : list Byte.byte -> Image.

Record AmigaCamera := mkAmigaCamera {
  stream : option nat;
  img : option Image
}.

Inductive ComponentState := Component_OK | Component_STOPPED.

(** [AmigaCamera.forward] *)
Definition forward (read : nat -> result (list Byte.byte))
    (self : AmigaCamera) (streams : list StreamFramesRequest)
    : AmigaCamera * list StreamFramesRequest * result ComponentState :=
  let '(streams, h) :=
    match stream self with
    | None => stream_frames 10 streams
    | Some h => (streams, h)
    end in
  let self := {| stream := Some h; img := img self |} in
  match read h with
  | Return data =>
      ({| stream := stream self; img := Some (imdecode data) |}, streams,
       Return Component_OK)
  | Raise e => (self, streams, Raise e)
  end.

(** [forward] run once per scheduling tick, [reads] giving the outcome
    of the read of each tick. *)
Fixpoint forwards (reads : list (nat -> result (list Byte.byte)))
    (self : AmigaCamera) (streams : list StreamFramesRequest)
    : AmigaCamera * list StreamFramesRequest :=
  match reads with
  | [] => (self, streams)
  | read :: reads' =>
      let '(self, streams, _) := forward read self streams in
      forwards reads' self streams
  end.

End AmigaCamera.

(** ** Further concrete inputs *)

(** A call at 0, two more within the period, the handle run on time. *)
Definition timely_trace : list (@event nat) :=
  [Invoke 0 7%nat; Invoke (1 # 2) 8%nat; Invoke (3 # 4) 9%nat; Fire 1].

(** A call at 0 and one half a period later, its handle pending. *)
Definition pending_trace : list (@event nat) :=
  [Invoke 0 7%nat; Invoke (1 # 2) 8%nat].

(** Three calls in quick succession. *)
Definition quick_trace : list (@event nat) :=
  [Invoke 0 7%nat; Invoke 0 8%nat; Invoke (1 # 2) 9%nat].

(** Two ticks of the camera component: the first read raises, the
    second returns an empty payload. *)
Definition two_reads : list (nat -> result (list Byte.byte)) :=
  [fun _ => Raise OtherException; fun _ => Return []].

(** Two clients, the second given the rgb object of the first. *)
Definition sharing_clients : store * (loc * loc) :=
  let '(m, a) := OakCameraClient_init localhost {| heap := ∅; instances := ∅ |} in
  let '(m, b) := OakCameraClient_init localhost m in
  match instances m !! a with
  | Some ca => (fst (update_rgb_settings (b, _rgb_camera_settings ca) m), (a, b))
  | None => (m, (a, b))
  end.

(** One client given its own rgb object as mono settings too. *)
Definition aliased_client : store * loc :=
  let '(m, self) := one_client in
  match instances m !! self with
  | Some c => (fst (update_mono_settings (self, _rgb_camera_settings c) m), self)
  | None => (m, self)
  end.

(** Two clients; the rgb update of the first ran at time 0 and was
    called again a quarter of a period later: that call is pending. *)
Definition first_client_pending : system * (loc * loc) :=
  let '(s, (a, b)) := two_clients in
  let s := call_update Rgb 0 a 1%positive s in
  let s := call_update Rgb (1 # 4) a 3%positive s in
  (s, (a, b)).

(** A reply with status [OK] and two different echoes. *)
Definition ok_reply : CameraControlReply :=
  {| status := OK;
     stereo_settings := mkCameraSettings false 10 1;
     rgb_settings := mkCameraSettings false 20 2 |}.

(** * Properties of the rate limiter *)

Lemma Qlt_bool_true (x y : Q) : Qlt_bool x y = true <-> (x < y)%Q.
Proof.
  unfold Qlt_bool. rewrite negb_true_iff. split; intros H.
  - apply Qnot_le_lt. intros Hle. apply Qle_bool_iff in Hle. congruence.
  - apply not_true_is_false. intros Hle. apply Qle_bool_iff in Hle.
    apply (Qlt_not_le _ _ H Hle).
Qed.

Lemma Qlt_bool_false (x y : Q) : Qlt_bool x y = false <-> (y <= x)%Q.
Proof.
  unfold Qlt_bool. rewrite negb_false_iff. apply Qle_bool_iff.
Qed.

Section RateLimiterFacts.
Context {Call St : Type}.
Implicit Types (func : Call -> St -> St * outcome) (self : RateLimiter Call).

Lemma wrapper_limiter func now self st :
  fst (wrapper func now self st)
  = {| last_call := Some now; period := period self;
       outstanding_call := false; args := args self |}.
Proof.
  unfold wrapper, set_outstanding_call, set_last_call. cbn.
  destruct (args self); reflexivity.
Qed.

Lemma wrapper_result func now self st :
  snd (wrapper func now self st)
  = match args self with
    | Some a => func a st
    | None => (st, Raised)
    end.
Proof.
  unfold wrapper, set_outstanding_call, set_last_call. cbn.
  destruct (args self); reflexivity.
Qed.

Lemma next_call_wait_negative now self :
  (next_call_wait now self < 0)%Q <-> runs_at_once now self.
Proof.
  unfold next_call_wait, runs_at_once. destruct (last_call self) as [l|].
  - split.
    + intros H. right. exists l. split; [reflexivity | exact H].
    + intros [H | (l' & H & Hlt)]; [discriminate | ]. injection H as <-. exact Hlt.
  - split; [intros _; left; reflexivity | intros _; reflexivity].
Qed.

Lemma async_wrapper_at_once func now a self st :
  runs_at_once now self ->
  async_wrapper func now a self st
  = {| limiter_after := {| last_call := Some now; period := period self;
                           outstanding_call := false; args := Some a |};
       state_after := fst (func a st);
       call_later := None;
       ran := Some (snd (func a st)) |}.
Proof.
  intros H. unfold async_wrapper.
  assert (Hd : Qlt_bool (next_call_wait now (set_args a self)) 0 = true).
  { apply Qlt_bool_true. apply next_call_wait_negative.
    destruct H as [H | (l & H & Hlt)]; [left | right; exists l]; auto. }
  rewrite Hd. unfold wrapper. simpl. destruct (func a st); reflexivity.
Qed.

Lemma async_wrapper_deferred func now a self st :
  ~ runs_at_once now self ->
  async_wrapper func now a self st
  = if outstanding_call self then
      {| limiter_after := set_args a self; state_after := st;
         call_later := None; ran := None |}
    else
      {| limiter_after := set_outstanding_call true (set_args a self);
         state_after := st;
         call_later := Some (next_call_wait now self); ran := None |}.
Proof.
  intros H. unfold async_wrapper.
  assert (Hd : Qlt_bool (next_call_wait now (set_args a self)) 0 = false).
  { apply not_true_is_false. intros Ht. apply Qlt_bool_true in Ht.
    apply next_call_wait_negative in Ht. apply H.
    destruct Ht as [Ht | (l & Ht & Hlt)]; [left | right; exists l]; auto. }
  rewrite Hd. simpl. destruct (outstanding_call self); reflexivity.
Qed.

Lemma runs_at_once_dec now self : runs_at_once now self \/ ~ runs_at_once now self.
Proof.
  rewrite <- next_call_wait_negative.
  destruct (Qlt_le_dec (next_call_wait now self) 0) as [H | H]; [left; exact H | ].
  right. intros Hlt. apply (Qlt_not_le _ _ Hlt H).
Qed.

(** C7 (as amended): a call of the decorated function runs the wrapped
    function inside the call exactly when the limiter has never run or
    the remaining wait [period - (now - last_call)] is strictly
    negative; it then runs it with the arguments of this call and
    records [last_call = now].  Otherwise nothing runs inside the call
    and [last_call] keeps its value. *)
Theorem async_wrapper_immediate_iff func now a self st :
  let r := async_wrapper func now a self st in
  (ran r <> None <-> runs_at_once now self)
  /\ (ran r <> None ->
      last_call (limiter_after r) = Some now
      /\ state_after r = fst (func a st)
      /\ ran r = Some (snd (func a st)))
  /\ (ran r = None ->
      last_call (limiter_after r) = last_call self /\ state_after r = st).
Proof.
  intros r. subst r.
  destruct (runs_at_once_dec now self) as [H | H].
  - rewrite (async_wrapper_at_once func a st H). simpl.
    repeat split; auto; try discriminate.
  - rewrite (async_wrapper_deferred func a st H).
    destruct (outstanding_call self); simpl;
      (split; [split; [congruence | intros H'; contradiction] | ]);
      (split; [congruence | auto]).
Qed.

(** C10: [wrapper] assigns [last_call] and clears [outstanding_call]
    before it calls the wrapped function, so the limiter it leaves
    behind is the same whatever the function does, raising included
    (also when [wrapper] runs inside a call of the decorated function);
    a call that follows within the period runs nothing at once and is
    handed to [call_later]. *)
Theorem wrapper_limiter_independent_of_outcome
    (f g : Call -> St -> St * outcome) now now' a self st st' :
  (now' - now <= period self)%Q ->
  let l := fst (wrapper f now self st) in
  l = fst (wrapper g now self st')
  /\ last_call l = Some now
  /\ outstanding_call l = false
  /\ (runs_at_once now self ->
      limiter_after (async_wrapper f now a self st)
      = limiter_after (async_wrapper g now a self st'))
  /\ ran (async_wrapper f now' a l (fst (snd (wrapper f now self st)))) = None
  /\ call_later (async_wrapper f now' a l (fst (snd (wrapper f now self st))))
     = Some (period self - (now' - now))%Q.
Proof.
  intros Hin l. subst l. rewrite !wrapper_limiter.
  repeat split.
  - intros H. rewrite !async_wrapper_at_once by exact H. reflexivity.
  - rewrite async_wrapper_deferred; [reflexivity | ].
    intros [H | (l & H & Hlt)]; simpl in *; [discriminate | ].
    injection H as <-. apply (Qlt_not_le _ _ Hlt). lra.
  - rewrite async_wrapper_deferred; [reflexivity | ].
    intros [H | (l & H & Hlt)]; simpl in *; [discriminate | ].
    injection H as <-. apply (Qlt_not_le _ _ Hlt). lra.
Qed.

(** While the flag is set and the wait is not negative, a call only
    stores its arguments. *)
Lemma async_wrapper_coalesces func now a self st :
  outstanding_call self = true ->
  ~ runs_at_once now self ->
  async_wrapper func now a self st
  = {| limiter_after := set_args a self; state_after := st;
       call_later := None; ran := None |}.
Proof.
  intros Ho H. rewrite async_wrapper_deferred by exact H. rewrite Ho. reflexivity.
Qed.

End RateLimiterFacts.

(** * The rate limiter on the event loop *)

Section EventLoopFacts.
Context {Call St : Type}.
Variable func : Call -> St -> St * outcome.
Implicit Types (w : loop (Call:=Call) (St:=St)) (es : list (@event Call)).

Lemma step_Invoke w now a w' :
  step func w (Invoke now a) = Some w' ->
  (clock w <= now)%Q
  /\ w' = let r := async_wrapper (observed func now) now a (limiter w) (target w) in
          {| limiter := limiter_after r;
             target := state_after r;
             timers := match call_later r with
                       | Some delay => insert_timer (now + delay) (timers w)
                       | None => timers w
                       end;
             clock := now |}.
Proof.
  unfold step. simpl. destruct (Qle_bool (clock w) now) eqn:Hc; [ | discriminate].
  intros H. injection H as <-. split; [apply Qle_bool_iff; exact Hc | reflexivity].
Qed.

Lemma step_Fire w now w' :
  step func w (Fire now) = Some w' ->
  exists due rest,
    timers w = due :: rest /\ (due <= now)%Q
    /\ w' = {| limiter := fst (wrapper (observed func now) now (limiter w) (target w));
               target := fst (snd (wrapper (observed func now) now (limiter w) (target w)));
               timers := rest;
               clock := now |}.
Proof.
  unfold step. simpl. destruct (Qle_bool (clock w) now); [ | discriminate].
  destruct (timers w) as [ | due rest]; [discriminate | ].
  destruct (Qle_bool due now) eqn:Hd; [ | discriminate].
  destruct (wrapper (observed func now) now (limiter w) (target w)) as [l [s o]].
  intros H. injection H as <-. exists due, rest.
  split; [reflexivity | split; [apply Qle_bool_iff; exact Hd | reflexivity]].
Qed.

Lemma observed_log now a (s : St * list (Q * Call)) :
  snd (fst (observed func now a s)) = snd s ++ [(now, a)].
Proof. unfold observed. destruct (func a (fst s)). reflexivity. Qed.

(** What a step adds to the executions: nothing, or one call made at
    the time of the step with the arguments the limiter holds after
    the step. *)
Lemma step_executions w e w' :
  step func w e = Some w' ->
  executions w' = executions w
  \/ exists a, args (limiter w') = Some a
               /\ executions w' = executions w ++ [(event_time e, a)].
Proof.
  destruct e as [now a | now]; intros H.
  - apply step_Invoke in H as [_ ->]. cbv zeta.
    destruct (runs_at_once_dec now (limiter w)) as [Hr | Hr].
    + rewrite (async_wrapper_at_once _ a (target w) Hr). right. exists a.
      unfold executions. simpl. split; [reflexivity | apply observed_log].
    + rewrite (async_wrapper_deferred _ a (target w) Hr). left.
      destruct (outstanding_call (limiter w)); reflexivity.
  - apply step_Fire in H as (due & rest & _ & _ & ->).
    unfold executions. simpl. rewrite wrapper_limiter, wrapper_result. simpl.
    destruct (args (limiter w)) as [a | ]; simpl.
    + right. exists a. split; [reflexivity | apply observed_log].
    + left. reflexivity.
Qed.

Lemma step_args w e w' :
  step func w e = Some w' ->
  args (limiter w') = latest_args (args (limiter w)) [e].
Proof.
  destruct e as [now a | now]; intros H; simpl.
  - apply step_Invoke in H as [_ ->]. cbv zeta.
    destruct (runs_at_once_dec now (limiter w)) as [Hr | Hr].
    + rewrite (async_wrapper_at_once _ a (target w) Hr). reflexivity.
    + rewrite (async_wrapper_deferred _ a (target w) Hr).
      destruct (outstanding_call (limiter w)); reflexivity.
  - apply step_Fire in H as (due & rest & _ & _ & ->). simpl.
    rewrite wrapper_limiter. reflexivity.
Qed.

Lemma latest_args_app acc es es' :
  latest_args acc (es ++ es') = latest_args (latest_args acc es) es'.
Proof.
  revert acc. induction es as [ | [now a | now] es IH]; intros acc; simpl; auto.
Qed.

Lemma run_args es : forall w w',
  run func w es = Some w' ->
  args (limiter w') = latest_args (args (limiter w)) es.
Proof.
  induction es as [ | e es IH]; intros w w' H; simpl in H.
  - injection H as <-. reflexivity.
  - destruct (step func w e) as [w1 | ] eqn:Hs; [ | discriminate].
    rewrite (IH _ _ H), (step_args _ _ Hs).
    change (e :: es) with ([e] ++ es). rewrite latest_args_app. reflexivity.
Qed.

(** Every execution, inside a call or from a handle, receives the
    arguments of the latest call made up to that moment. *)
Lemma executions_use_latest_args (p : Q) (st : St) (t0 : Q) pre e w1 w2 :
  run func (decorated p st t0) pre = Some w1 ->
  step func w1 e = Some w2 ->
  executions w2 = executions w1
  \/ exists a, latest_args None (pre ++ [e]) = Some a
               /\ executions w2 = executions w1 ++ [(event_time e, a)].
Proof.
  intros Hrun Hstep.
  destruct (step_executions _ _ Hstep) as [H | (a & Ha & H)]; [left; exact H | ].
  right. exists a. split; [ | exact H].
  rewrite latest_args_app, <- (run_args _ _ Hrun : _ = latest_args None pre).
  rewrite <- (step_args _ _ Hstep). exact Ha.
Qed.

End EventLoopFacts.

(** * Runs in which no call finds a handle overdue *)

(** Linear arithmetic over the clock readings in the context. *)
Ltac times :=
  repeat match goal with
         | H : ?T |- _ =>
             lazymatch T with
             | Qle _ _ => fail
             | Qlt _ _ => fail
             | Qeq _ _ => fail
             | _ => clear H
             end
         end;
  lra.

Section TimelyRuns.
Context {Call St : Type}.
Variable func : Call -> St -> St * outcome.
Implicit Types (w : loop (Call:=Call) (St:=St)) (es : list (@event Call)).

Lemma spaced_snoc (p : Q) (log : list (Q * Call)) t a :
  spaced p log ->
  (forall t0 a0, last log = Some (t0, a0) -> (t0 + p <= t)%Q) ->
  spaced p (log ++ [(t, a)]).
Proof.
  induction log as [ | [t1 a1] rest IH]; intros Hs Hl; simpl.
  - split; exact I.
  - destruct Hs as [Hhd Htl]. split.
    + destruct rest as [ | [t2 a2] rest']; simpl.
      * apply (Hl t1 a1). reflexivity.
      * exact Hhd.
    + apply IH; [exact Htl | ].
      intros t0 a0 H0. apply (Hl t0 a0).
      destruct rest; [discriminate | exact H0].
Qed.

Lemma decorated_timely_inv (p : Q) (st : St) (t0 : Q) :
  timely_inv p (decorated (Call:=Call) p st t0).
Proof.
  unfold timely_inv, single_handle, executions. simpl.
  repeat split; auto. intros t a H. discriminate.
Qed.

Lemma invoke_timely_inv p w now a w' :
  timely_inv p w ->
  overdue now w = false ->
  step func w (Invoke now a) = Some w' ->
  timely_inv p w'.
Proof.
  intros (Hp & Hh & Hs & Hl) Hod Hstep. subst p.
  apply step_Invoke in Hstep as [_ ->]. cbv zeta.
  unfold timely_inv, single_handle, executions, overdue in *.
  destruct (runs_at_once_dec now (limiter w)) as [Hr | Hr].
  - rewrite (async_wrapper_at_once _ a (target w) Hr). simpl.
    rewrite observed_log.
    split; [reflexivity | ]. split; [ | split].
    + destruct (timers w) as [ | due [ | due' rest]]; [reflexivity | | exact Hh].
      exfalso. destruct Hh as (_ & _ & l & Hlast & Hdue).
      apply Qlt_bool_false in Hod.
      destruct Hr as [Hr | (l' & Hr & Hlt)]; [congruence | ].
      rewrite Hlast in Hr. injection Hr as <-. times.
    + apply spaced_snoc; [exact Hs | ].
      intros t0 a0 H0. destruct (Hl _ _ H0) as (l & Hlast & Hle).
      destruct Hr as [Hr | (l' & Hr & Hlt)]; [congruence | ].
      rewrite Hlast in Hr. injection Hr as <-. times.
    + intros t a' H. rewrite last_snoc in H. injection H as <- <-.
      exists now. split; [reflexivity | lra].
  - rewrite (async_wrapper_deferred _ a (target w) Hr).
    destruct (outstanding_call (limiter w)) eqn:Ho; simpl.
    + split; [reflexivity | ]. split; [ | split; [exact Hs | exact Hl]].
      destruct (timers w) as [ | due [ | due' rest]]; [congruence | | exact Hh].
      destruct Hh as (_ & _ & Hlast). split; [exact Ho | ].
      split; [exists a; reflexivity | exact Hlast].
    + split; [reflexivity | ]. split; [ | split; [exact Hs | exact Hl]].
      destruct (timers w) as [ | due [ | due' rest]];
        [ | destruct Hh as [Hh _]; congruence | contradiction].
      simpl. split; [reflexivity | ]. split; [exists a; reflexivity | ].
      unfold next_call_wait.
      destruct (last_call (limiter w)) as [l | ] eqn:Hlast.
      * exists l. split; [reflexivity | ]. ring.
      * exfalso. apply Hr. left. exact Hlast.
Qed.

Lemma fire_timely_inv p w now w' :
  timely_inv p w ->
  step func w (Fire now) = Some w' ->
  timely_inv p w'.
Proof.
  intros (Hp & Hh & Hs & Hl) Hstep. subst p.
  apply step_Fire in Hstep as (due & rest & Ht & Hdue & ->).
  unfold timely_inv, single_handle, executions in *. simpl.
  rewrite wrapper_limiter, wrapper_result. rewrite Ht in Hh.
  destruct rest as [ | due' rest]; [ | contradiction].
  destruct Hh as (_ & (a & Ha) & l & Hlast & Hd).
  rewrite Ha. simpl. rewrite observed_log.
  split; [reflexivity | ]. split; [reflexivity | ]. split.
  - apply spaced_snoc; [exact Hs | ].
    intros t0 a0 H0. destruct (Hl _ _ H0) as (l' & Hlast' & Hle).
    rewrite Hlast in Hlast'. injection Hlast' as <-. times.
  - intros t a' H. rewrite last_snoc in H. injection H as <- <-.
    exists now. split; [reflexivity | lra].
Qed.

Lemma timely_run_inv p es : forall w w',
  timely_inv p w ->
  timely func w es = true ->
  run func w es = Some w' ->
  timely_inv p w'.
Proof.
  induction es as [ | e es IH]; intros w w' Hinv Ht Hrun; simpl in *.
  - injection Hrun as <-. exact Hinv.
  - destruct (step func w e) as [w1 | ] eqn:Hs; [ | discriminate].
    apply andb_true_iff in Ht as [He Ht].
    apply (IH w1 w'); [ | exact Ht | exact Hrun].
    destruct e as [now a | now].
    + apply negb_true_iff in He. eapply invoke_timely_inv; eassumption.
    + eapply fire_timely_inv; eassumption.
Qed.

(** As long as no call finds a handle overdue, consecutive executions
    are at least one period apart. *)
Lemma timely_executions_spaced (p : Q) (st : St) (t0 : Q) es w :
  timely func (decorated p st t0) es = true ->
  run func (decorated p st t0) es = Some w ->
  spaced p (executions w).
Proof.
  intros Ht Hrun.
  eapply timely_run_inv; [apply decorated_timely_inv | exact Ht | exact Hrun].
Qed.

(** As long as no call finds a handle overdue, at most one handle is
    pending, and the flag tells whether one is. *)
Lemma timely_single_handle (p : Q) (st : St) (t0 : Q) es w :
  timely func (decorated p st t0) es = true ->
  run func (decorated p st t0) es = Some w ->
  (length (timers w) <= 1)%nat
  /\ (outstanding_call (limiter w) = true <-> length (timers w) = 1%nat).
Proof.
  intros Ht Hrun.
  assert (Hinv : timely_inv p w)
    by (eapply timely_run_inv; [apply decorated_timely_inv | exact Ht | exact Hrun]).
  destruct Hinv as (_ & Hh & _).
  unfold single_handle in Hh.
  destruct (timers w) as [ | due [ | due' rest]]; simpl.
  - split; [lia | ]. rewrite Hh. split; discriminate.
  - destruct Hh as [Hh _]. split; [lia | ]. rewrite Hh. split; reflexivity.
  - contradiction.
Qed.

End TimelyRuns.

(** * The limiter at concrete inputs *)

(** C7 (the claim as stated fails): with one period exactly elapsed
    since the last execution the remaining wait is [0], which satisfies
    [remaining <= 0]; the call does not run the wrapped function, it
    hands it to [call_later] with delay [0]. *)
Lemma async_wrapper_zero_wait_is_deferred :
  let r := async_wrapper noop 1 8%nat executed_at_0 tt in
  (period executed_at_0 - (1 - 0) <= 0)%Q
  /\ last_call executed_at_0 = Some 0%Q
  /\ ran r = None
  /\ call_later r = Some (1 - (1 - 0))%Q
  /\ last_call (limiter_after r) = Some 0%Q.
Proof.
  cbv zeta. split; [vm_compute; discriminate | ].
  repeat split.
Qed.

(** C10 at a function that always raises, called again half a period
    later. *)
Lemma wrapper_limiter_independent_of_outcome_witness :
  ((1 # 2) - 0 <= period executed_at_0)%Q
  /\ fst (wrapper failing 0 executed_at_0 tt) = fst (wrapper noop 0 executed_at_0 tt)
  /\ ran (async_wrapper failing (1 # 2) 8%nat
            (fst (wrapper failing 0 executed_at_0 tt))
            (fst (snd (wrapper failing 0 executed_at_0 tt)))) = None.
Proof.
  assert (H : ((1 # 2) - 0 <= period executed_at_0)%Q) by (vm_compute; discriminate).
  split; [exact H | ].
  pose proof (@wrapper_limiter_independent_of_outcome nat unit
                failing noop 0 (1 # 2) 8%nat executed_at_0 tt tt H) as T.
  cbv zeta in T. destruct T as (T1 & _ & _ & _ & T2 & _).
  split; [exact T1 | exact T2].
Defined.

(** C3 (the code at the failing input): three calls less than one
    period apart, the third arriving after the handle of the second came
    due but before the loop ran it.  The third call runs the function at
    once, the handle runs it again a tenth of a period later: two
    executions within one period (both with the arguments of the latest
    call). *)
Theorem overdue_handle_executes_twice :
  map event_time late_handle_trace = [0%Q; 1 # 2; 11 # 10]
  /\ timely noop (decorated 1 tt 0) late_handle_trace = false
  /\ exists w,
       run noop (decorated 1 tt 0) (late_handle_trace ++ [Fire (6 # 5)]) = Some w
       /\ executions w = [(0%Q, 7%nat); (11 # 10, 9%nat); (6 # 5, 9%nat)]
       /\ ~ spaced 1 (executions w).
Proof.
  split; [reflexivity | ]. split; [vm_compute; reflexivity | ].
  eexists. split; [vm_compute; reflexivity | ].
  split; [reflexivity | ].
  simpl. intros [_ [H _]]. revert H. vm_compute. intros H. apply H. reflexivity.
Qed.

(** C6 (the code at the failing input): the third call of
    [late_handle_trace] arrives while the handle of the second is still
    pending and runs the function at once, clearing the flag; a fourth
    call within the new period then creates a second handle while the
    first is still pending. *)
Theorem overdue_handle_second_timer :
  exists w3 w4,
    run noop (decorated 1 tt 0) late_handle_trace = Some w3
    /\ length (timers w3) = 1%nat
    /\ outstanding_call (limiter w3) = false
    /\ executions w3 = [(0%Q, 7%nat); (11 # 10, 9%nat)]
    /\ step noop w3 (Invoke (6 # 5) 10%nat) = Some w4
    /\ length (timers w4) = 2%nat.
Proof.
  eexists. eexists. split; [vm_compute; reflexivity | ].
  repeat split.
Qed.

(** * Properties of the camera client *)

Unset Implicit Arguments.

Lemma ReplyStatus_eqb_OK (s : ReplyStatus) : ReplyStatus_eqb s OK = true <-> s = OK.
Proof. destruct s; simpl; split; congruence. Qed.

(** C5 (the claim as stated fails): a malformed or unexpected reply
    that the stub returns is not an exception of the stub, so the
    handler never sees it.  With an object that is no reply message
    [response.state] raises, and with a reply whose state is no value of
    the enum [state.name] raises: [get_state] raises in both cases
    (here with the enum and the default of the spec). *)
Lemma get_state_returned_reply_raises :
  get_state UNKNOWN (Return None) = Raise OtherException
  /\ get_state UNKNOWN (Return (Some {| state := NoEnumValue 7 |}))
     = Raise OtherException.
Proof. split; reflexivity. Qed.

(** C5 (as amended): when the state query ends with a [grpc.RpcError]
    (connection error, timeout, unreachable peer, server not started),
    [get_state] returns [ServiceState()], the state built without a
    reply, and does not raise.  A reply that the stub returns is outside
    the handler: a well-formed one yields its state, while an object
    that is no reply message, or a reply whose state is no value of the
    enum, makes [get_state] raise, as does an exception of the stub that
    is not a [grpc.RpcError].  These are the only ways it raises, and
    the state it returns always holds a value of the enum. *)
Theorem get_state_rpc_error_default {Value : Type} (default : Value) :
  (forall why, get_state default (Raise (RpcError why)) = Return (EnumValue default))
  /\ (forall v, get_state default (Return (Some {| state := EnumValue v |}))
               = Return (EnumValue v))
  /\ (forall answer,
        (exists e, get_state default answer = Raise e)
        <-> (answer = Raise OtherException
             \/ answer = Return None
             \/ exists n, answer = Return (Some {| state := NoEnumValue n |})))
  /\ (forall answer e, get_state default answer = Raise e -> e = OtherException)
  /\ (forall answer st, get_state default answer = Return st ->
        exists v, st = EnumValue v).
Proof.
  split; [reflexivity | ]. split; [reflexivity | ]. split; [ | split].
  - intros answer. split.
    + intros [e H]. destruct answer as [[[[v | n]] | ] | [why | ]];
        simpl in H; try discriminate.
      * right. right. exists n. reflexivity.
      * right. left. reflexivity.
      * left. reflexivity.
    + intros [-> | [-> | [n ->]]]; exists OtherException; reflexivity.
  - intros answer e H. destruct answer as [[[[v | n]] | ] | [why | ]];
      simpl in H; try discriminate; injection H as <-; reflexivity.
  - intros answer st H. destruct answer as [[[[v | n]] | ] | [why | ]];
      simpl in H; try discriminate; injection H as <-; eexists; reflexivity.
Qed.

(** C2 (the claim as stated fails): two calls of [stream_frames] on one
    client return two different handles and leave two streams open. *)
Lemma stream_frames_twice_two_streams :
  let first := stream_frames 10 [] in
  let second := stream_frames 10 (fst first) in
  snd first <> snd second /\ length (fst second) = 2%nat.
Proof. split; [discriminate | reflexivity]. Qed.

(** C2 (as amended): every call of [stream_frames] opens one more
    server stream, with the requested [every_n], and returns the handle
    of that new stream; no handle is reused, so a second call never
    returns the handle of the first.  Reuse is left to the caller. *)
Theorem stream_frames_opens_one_stream (n n' : Z) (streams : list StreamFramesRequest) :
  let opened := stream_frames n streams in
  fst opened = streams ++ [{| every_n := n |}]
  /\ streams !! snd opened = None
  /\ fst opened !! snd opened = Some {| every_n := n |}
  /\ snd (stream_frames n' (fst opened)) <> snd opened.
Proof.
  unfold stream_frames, stub_streamFrames. simpl. repeat split.
  - apply lookup_ge_None. lia.
  - rewrite lookup_app_r by lia. rewrite Nat.sub_diag. reflexivity.
  - rewrite length_app. simpl. lia.
Qed.

Lemma send_settings_inv self cameraControl m m1 request answer :
  send_settings self cameraControl m = Some (m1, request, answer) ->
  exists c mono rgb,
    instances m !! self = Some c
    /\ heap m !! _mono_camera_settings c = Some mono
    /\ heap m !! _rgb_camera_settings c = Some rgb
    /\ request = {| request_stereo_settings := mono; request_rgb_settings := rgb |}
    /\ answer = cameraControl request
    /\ m1 = {| heap := heap m;
               instances := <[self := set_needs_update false c]> (instances m) |}.
Proof.
  unfold send_settings. intros H.
  destruct (instances m !! self) as [c | ] eqn:Hc; simpl in H; [ | discriminate].
  destruct (heap m !! _mono_camera_settings c) as [mono | ] eqn:Hm; simpl in H;
    [ | discriminate].
  destruct (heap m !! _rgb_camera_settings c) as [rgb | ] eqn:Hr; simpl in H;
    [ | discriminate].
  injection H as <- <- <-. exists c, mono, rgb. repeat split; assumption.
Qed.

(** [send_settings] touches no settings object and no settings
    attribute: what the client reads back is what it read before. *)
Lemma send_settings_keeps_settings self cameraControl m m1 request answer :
  send_settings self cameraControl m = Some (m1, request, answer) ->
  heap m1 = heap m
  /\ (forall other, rgb_settings_of other m1 = rgb_settings_of other m)
  /\ (forall other, mono_settings_of other m1 = mono_settings_of other m)
  /\ (needs_update <$> instances m1 !! self) = Some false.
Proof.
  intros H. apply send_settings_inv in H as (c & mono & rgb & Hc & _ & _ & _ & _ & ->).
  unfold rgb_settings_of, mono_settings_of. simpl. split; [reflexivity | ].
  split; [ | split].
  - intros other. destruct (decide (self = other)) as [<- | Hne].
    + rewrite lookup_insert_eq, Hc. reflexivity.
    + rewrite lookup_insert_ne by exact Hne. reflexivity.
  - intros other. destruct (decide (self = other)) as [<- | Hne].
    + rewrite lookup_insert_eq, Hc. reflexivity.
    + rewrite lookup_insert_ne by exact Hne. reflexivity.
  - rewrite lookup_insert_eq. reflexivity.
Qed.

Lemma settings_reply_OK self c reply m :
  instances m !! self = Some c ->
  status reply = OK ->
  settings_reply self reply m
  = {| heap := <[_rgb_camera_settings c := rgb_settings reply]>
                 (<[_mono_camera_settings c := stereo_settings reply]> (heap m));
       instances := instances m |}.
Proof.
  intros Hc Hs. unfold settings_reply. rewrite Hc, Hs. reflexivity.
Qed.

Lemma settings_reply_not_OK self reply m :
  status reply <> OK ->
  settings_reply self reply m = m.
Proof.
  intros Hs. unfold settings_reply. destruct (instances m !! self); [ | reflexivity].
  destruct (ReplyStatus_eqb (status reply) OK) eqn:He; [ | reflexivity].
  apply ReplyStatus_eqb_OK in He. contradiction.
Qed.

(** The two settings objects made by the constructor are distinct. *)
Lemma init_settings_distinct cfg m m' self c :
  OakCameraClient_init cfg m = (m', self) ->
  instances m' !! self = Some c ->
  _mono_camera_settings c <> _rgb_camera_settings c.
Proof.
  unfold OakCameraClient_init, new_settings. intros H Hc.
  injection H as <- <-. simpl in Hc. rewrite lookup_insert_eq in Hc.
  injection Hc as <-. simpl. intros Heq.
  apply (is_fresh (dom (<[fresh (dom (heap m)) := mkCameraSettings true 0 0]> (heap m)))).
  rewrite <- Heq. rewrite dom_insert_L. set_solver.
Qed.

(** C1 (the claim as stated fails): the service accepts the request and
    echoes adjusted rgb settings; after [send_settings] has returned that
    reply the client still holds the settings it sent, not the echo. *)
Lemma send_settings_ignores_the_echo :
  let '(m, self) := one_client in
  exists m1 request reply,
    send_settings self service_adjusts m = Some (m1, request, Return reply)
    /\ status reply = OK
    /\ rgb_settings_of self m1 = Some (mkCameraSettings true 0 0)
    /\ rgb_settings reply = mkCameraSettings true 33 0
    /\ rgb_settings_of self m1 <> Some (rgb_settings reply).
Proof.
  vm_compute. eexists. eexists. eexists.
  split; [reflexivity | ]. repeat split. discriminate.
Qed.

(** C1 (as amended): [send_settings] itself leaves both settings
    snapshots as they were and hands the reply to its caller; once the
    caller passes a reply with status [OK] to [settings_reply], the rgb
    snapshot is exactly the echoed rgb settings and, the two attributes
    referring to distinct objects (as they do from construction), the
    mono snapshot is exactly the echoed stereo settings. *)
Theorem settings_reply_installs_the_echo self cameraControl m m1 request reply :
  send_settings self cameraControl m = Some (m1, request, Return reply) ->
  status reply = OK ->
  (rgb_settings_of self m1 = rgb_settings_of self m
   /\ mono_settings_of self m1 = mono_settings_of self m)
  /\ rgb_settings_of self (settings_reply self reply m1) = Some (rgb_settings reply)
  /\ ((forall c, instances m !! self = Some c ->
         _mono_camera_settings c <> _rgb_camera_settings c) ->
      mono_settings_of self (settings_reply self reply m1)
      = Some (stereo_settings reply)).
Proof.
  intros Hsend Hok.
  destruct (send_settings_keeps_settings _ _ _ _ _ _ Hsend) as (_ & Hrgb & Hmono & _).
  split; [split; [apply Hrgb | apply Hmono] | ].
  apply send_settings_inv in Hsend as (c & mono & rgb & Hc & _ & _ & _ & _ & ->).
  assert (Hc1 : instances {| heap := heap m;
                   instances := <[self := set_needs_update false c]> (instances m) |}
                !! self = Some (set_needs_update false c))
    by (simpl; apply lookup_insert_eq).
  rewrite (settings_reply_OK _ _ _ _ Hc1 Hok).
  unfold rgb_settings_of, mono_settings_of. simpl. rewrite lookup_insert_eq. simpl.
  split.
  - apply lookup_insert_eq.
  - intros Hne. rewrite lookup_insert_ne by (apply not_eq_sym, (Hne c Hc)).
    apply lookup_insert_eq.
Qed.

(** C4 (the claim as stated fails): a client whose [needs_update] is set
    pushes its settings and the service answers with a status other than
    [OK]; afterwards [needs_update] is cleared. *)
Lemma rejected_push_clears_needs_update :
  let '(m, self) := dirty_client in
  exists m1 request reply,
    (needs_update <$> instances m !! self) = Some true
    /\ send_settings self service_rejects m = Some (m1, request, Return reply)
    /\ status reply <> OK
    /\ (needs_update <$> instances (settings_reply self reply m1) !! self)
       = Some false.
Proof.
  vm_compute. eexists. eexists. eexists.
  split; [reflexivity | ]. split; [reflexivity | ]. split; [discriminate | reflexivity].
Qed.

(** C4 (as amended): when the reply to a settings push carries a status
    other than [OK], [settings_reply] changes nothing: both settings
    snapshots keep their prior values.  [needs_update] was cleared when
    the request was dispatched and stays cleared; a later [send_settings]
    dispatches the same request again. *)
Theorem rejected_reply_keeps_settings self cameraControl m m1 request reply :
  send_settings self cameraControl m = Some (m1, request, Return reply) ->
  status reply <> OK ->
  let m2 := settings_reply self reply m1 in
  m2 = m1
  /\ rgb_settings_of self m2 = rgb_settings_of self m
  /\ mono_settings_of self m2 = mono_settings_of self m
  /\ (needs_update <$> instances m2 !! self) = Some false
  /\ exists m3, send_settings self cameraControl m2
                = Some (m3, request, cameraControl request).
Proof.
  intros Hsend Hno m2. subst m2. rewrite (settings_reply_not_OK self _ m1 Hno).
  destruct (send_settings_keeps_settings _ _ _ _ _ _ Hsend) as (_ & Hrgb & Hmono & Hflag).
  split; [reflexivity | ]. split; [apply Hrgb | ]. split; [apply Hmono | ].
  split; [exact Hflag | ].
  apply send_settings_inv in Hsend as (c & mono & rgb & Hc & Hm & Hr & -> & _ & ->).
  unfold send_settings. simpl. rewrite lookup_insert_eq. simpl.
  rewrite Hm, Hr. simpl. eexists. reflexivity.
Qed.

(** When one object has been installed in both attributes, the second
    [CopyFrom] of [settings_reply] overwrites the first: the mono
    snapshot then reads the echoed rgb settings. *)
Lemma settings_reply_shared_object self c reply m :
  instances m !! self = Some c ->
  _mono_camera_settings c = _rgb_camera_settings c ->
  status reply = OK ->
  mono_settings_of self (settings_reply self reply m) = Some (rgb_settings reply).
Proof.
  intros Hc Heq Hok. rewrite (settings_reply_OK _ _ _ _ Hc Hok).
  unfold mono_settings_of. simpl. rewrite Hc. simpl. rewrite Heq.
  apply lookup_insert_eq.
Qed.

(** * The class-level limiters *)

Lemma limiter_of_set_limiter self ch l m hs s :
  limiter_of self ch (set_limiter ch l m hs s) = l.
Proof. destruct ch; reflexivity. Qed.

Lemma memory_set_limiter ch l m hs s : memory (set_limiter ch l m hs s) = m.
Proof. destruct ch; reflexivity. Qed.

Lemma handles_set_limiter ch l m hs s : handles (set_limiter ch l m hs s) = hs.
Proof. destruct ch; reflexivity. Qed.



(** C9: a call of [update_rgb_settings] (or [update_mono_settings])
    made while the flag of that channel's limiter is set and no more
    than one period after its last execution changes neither the stored
    settings nor [needs_update] of any client, and creates no handle: it
    only replaces the pending arguments.  A [send_settings] issued after
    it dispatches what it would have dispatched before it.  When the
    pending handle runs, the newly supplied settings are installed and
    [needs_update] is set. *)
Theorem pending_update_leaves_client ch now self settings s last :
  outstanding_call (limiter_of self ch s) = true ->
  last_call (limiter_of self ch s) = Some last ->
  (now - last <= period (limiter_of self ch s))%Q ->
  let s' := call_update ch now self settings s in
  memory s' = memory s
  /\ handles s' = handles s
  /\ args (limiter_of self ch s') = Some (self, settings)
  /\ (forall client cameraControl,
        send_settings client cameraControl (memory s')
        = send_settings client cameraControl (memory s))
  /\ (forall c now', instances (memory s) !! self = Some c ->
        instances (memory (run_handle ch now' s')) !! self
        = Some (match ch with
                | Rgb => set_rgb_camera_settings settings (set_needs_update true c)
                | Mono => set_mono_camera_settings settings (set_needs_update true c)
                end)).
Proof.
  intros Ho Hlast Hin s'.
  assert (Hr : ~ runs_at_once now (limiter_of self ch s)).
  { intros [H | (l & H & Hlt)]; [congruence | ].
    rewrite Hlast in H. injection H as <-. apply (Qlt_not_le _ _ Hlt). lra. }
  assert (Hs' : s' = set_limiter ch (set_args (self, settings) (limiter_of self ch s))
                       (memory s) (handles s) s).
  { subst s'. unfold call_update.
    rewrite async_wrapper_coalesces by assumption. reflexivity. }
  rewrite Hs'. rewrite memory_set_limiter, handles_set_limiter, limiter_of_set_limiter.
  repeat split.
  intros c now' Hc. unfold run_handle.
  destruct ch; simpl; unfold wrapper; simpl; rewrite Hc; simpl;
    apply lookup_insert_eq.
Qed.

(** * The client at concrete inputs *)

(** The amended C1 at [one_client] and [service_adjusts]. *)
Lemma settings_reply_installs_the_echo_witness :
  exists m1 request reply,
    send_settings (snd one_client) service_adjusts (fst one_client)
    = Some (m1, request, Return reply)
    /\ status reply = OK
    /\ rgb_settings_of (snd one_client) (settings_reply (snd one_client) reply m1)
       = Some (rgb_settings reply).
Proof.
  destruct (send_settings (snd one_client) service_adjusts (fst one_client))
    as [[[m1 request] [reply | e]] | ] eqn:H;
    [ | vm_compute in H; discriminate | vm_compute in H; discriminate].
  assert (Hok : status reply = OK).
  { apply send_settings_inv in H as (c & mono & rgb & _ & _ & _ & _ & Ha & _).
    unfold service_adjusts in Ha. injection Ha as ->. reflexivity. }
  exists m1, request, reply. split; [reflexivity | ]. split; [exact Hok | ].
  apply (settings_reply_installs_the_echo _ _ _ _ _ _ H Hok).
Defined.

(** The amended C4 at [dirty_client] and [service_rejects]. *)
Lemma rejected_reply_keeps_settings_witness :
  exists m1 request reply,
    send_settings (snd dirty_client) service_rejects (fst dirty_client)
    = Some (m1, request, Return reply)
    /\ status reply <> OK
    /\ settings_reply (snd dirty_client) reply m1 = m1.
Proof.
  destruct (send_settings (snd dirty_client) service_rejects (fst dirty_client))
    as [[[m1 request] [reply | e]] | ] eqn:H;
    [ | vm_compute in H; discriminate | vm_compute in H; discriminate].
  assert (Hno : status reply <> OK).
  { apply send_settings_inv in H as (c & mono & rgb & _ & _ & _ & _ & Ha & _).
    unfold service_rejects in Ha. injection Ha as ->. discriminate. }
  exists m1, request, reply. split; [reflexivity | ]. split; [exact Hno | ].
  apply (rejected_reply_keeps_settings _ _ _ _ _ _ H Hno).
Defined.

(** C9 at [pending_rgb_update], a third call half a period after the
    execution. *)
Lemma pending_update_leaves_client_witness :
  outstanding_call (limiter_of (snd pending_rgb_update) Rgb (fst pending_rgb_update))
  = true
  /\ last_call (limiter_of (snd pending_rgb_update) Rgb (fst pending_rgb_update))
     = Some 0%Q
  /\ ((1 # 2) - 0
      <= period (limiter_of (snd pending_rgb_update) Rgb (fst pending_rgb_update)))%Q
  /\ memory (call_update Rgb (1 # 2) (snd pending_rgb_update) 1%positive
               (fst pending_rgb_update))
     = memory (fst pending_rgb_update).
Proof.
  assert (H1 : outstanding_call
                 (limiter_of (snd pending_rgb_update) Rgb (fst pending_rgb_update))
               = true) by reflexivity.
  assert (H2 : last_call
                 (limiter_of (snd pending_rgb_update) Rgb (fst pending_rgb_update))
               = Some 0%Q) by reflexivity.
  assert (H3 : ((1 # 2) - 0
                <= period (limiter_of (snd pending_rgb_update) Rgb
                             (fst pending_rgb_update)))%Q)
    by (vm_compute; discriminate).
  split; [exact H1 | ]. split; [exact H2 | ]. split; [exact H3 | ].
  apply (pending_update_leaves_client Rgb (1 # 2) (snd pending_rgb_update)
           1%positive (fst pending_rgb_update) 0 H1 H2 H3).
Defined.

(** * Further properties of the rate limiter *)

Section LimiterRuns.
Context {Call St : Type}.
Variable func : Call -> St -> St * outcome.
Implicit Types (w : loop (Call:=Call) (St:=St)) (es : list (@event Call)).

Lemma run_app es es' w :
  run func w (es ++ es')
  = match run func w es with
    | Some w1 => run func w1 es'
    | None => None
    end.
Proof.
  revert w. induction es as [ | e es IH]; intros w; simpl; [reflexivity | ].
  destruct (step func w e); [apply IH | reflexivity].
Qed.

Lemma run_snoc es e w w' :
  run func w (es ++ [e]) = Some w' ->
  exists w1, run func w es = Some w1 /\ step func w1 e = Some w'.
Proof.
  rewrite run_app. destruct (run func w es) as [w1 | ]; [ | discriminate].
  simpl. destruct (step func w1 e) as [w2 | ] eqn:Hs; [ | discriminate].
  intros H. injection H as <-. exists w1. split; [reflexivity | exact Hs].
Qed.

(** X1: in every run of a freshly decorated function, each execution
    was made at the time of one of the events and received the arguments
    of the latest call made up to and including that event. *)
Theorem executions_carry_latest_args (p : Q) (st : St) (t0 : Q) es w t a :
  run func (decorated p st t0) es = Some w ->
  (t, a) ∈ executions w ->
  exists pre e post,
    es = pre ++ e :: post
    /\ event_time e = t
    /\ latest_args None (pre ++ [e]) = Some a.
Proof.
  revert w. induction es as [ | e es IH] using rev_ind; intros w Hrun Hin.
  - simpl in Hrun. injection Hrun as <-. unfold executions in Hin. simpl in Hin.
    apply not_elem_of_nil in Hin. contradiction.
  - destruct (run_snoc _ _ _ _ Hrun) as (w1 & Hrun1 & Hstep).
    pose proof Hstep as Hx. eapply executions_use_latest_args in Hx; [ | exact Hrun1].
    destruct Hx as [Heq | (a' & Hlatest & Heq)].
    + rewrite Heq in Hin. destruct (IH _ Hrun1 Hin) as (pre & e' & post & -> & Ht & Ha).
      exists pre, e', (post ++ [e]). rewrite <- app_assoc. simpl.
      split; [reflexivity | split; assumption].
    + rewrite Heq in Hin. apply elem_of_app in Hin as [Hin | Hin].
      * destruct (IH _ Hrun1 Hin) as (pre & e' & post & -> & Ht & Ha).
        exists pre, e', (post ++ [e]). rewrite <- app_assoc. simpl.
        split; [reflexivity | split; assumption].
      * apply list_elem_of_singleton in Hin. injection Hin as -> ->.
        exists es, e, []. split; [reflexivity | split; [reflexivity | exact Hlatest]].
Qed.

Lemma spaced_head (p : Q) (log : list (Q * Call)) :
  (0 <= p)%Q ->
  forall t a, spaced p ((t, a) :: log) ->
  forall k t' a', log !! k = Some (t', a') -> (t + p <= t')%Q.
Proof.
  intros Hp. induction log as [ | [t1 a1] log IH]; intros t a Hs k t' a' Hk.
  - rewrite lookup_nil in Hk. discriminate.
  - destruct Hs as [Hhd Htl]. destruct k as [ | k]; simpl in Hk.
    + injection Hk as <- <-. exact Hhd.
    + pose proof (IH t1 a1 Htl k t' a' Hk) as Hle. times.
Qed.

Lemma spaced_pairwise (p : Q) (log : list (Q * Call)) :
  (0 <= p)%Q -> spaced p log ->
  forall i j ti ai tj aj,
    (i < j)%nat -> log !! i = Some (ti, ai) -> log !! j = Some (tj, aj) ->
    (ti + p <= tj)%Q.
Proof.
  intros Hp. induction log as [ | [t a] log IH]; intros Hs i j ti ai tj aj Hij Hi Hj.
  - rewrite lookup_nil in Hi. discriminate.
  - destruct j as [ | j]; [lia | ]. simpl in Hj. destruct i as [ | i]; simpl in Hi.
    + injection Hi as <- <-. apply (spaced_head p log Hp t a Hs j tj aj Hj).
    + destruct Hs as [_ Htl]. apply (IH Htl i j ti ai tj aj); [lia | exact Hi | exact Hj].
Qed.

(** X2: with a period that is not negative, as long as no call finds a
    handle overdue, any two executions of a run are at least one period
    apart: no window shorter than the period holds two of them. *)
Theorem timely_executions_pairwise_spaced (p : Q) (st : St) (t0 : Q) es w
    i j ti ai tj aj :
  (0 <= p)%Q ->
  timely func (decorated p st t0) es = true ->
  run func (decorated p st t0) es = Some w ->
  (i < j)%nat ->
  executions w !! i = Some (ti, ai) ->
  executions w !! j = Some (tj, aj) ->
  (ti + p <= tj)%Q.
Proof.
  intros Hp Ht Hrun Hij Hi Hj.
  eapply spaced_pairwise; [exact Hp | | exact Hij | exact Hi | exact Hj].
  eapply timely_executions_spaced; [exact Ht | exact Hrun].
Qed.

(** X3: as long as no call finds a handle overdue, at most one handle is
    pending; while one is pending the flag is set and the handle is due
    exactly one period after the last execution. *)
Theorem timely_handle_due (p : Q) (st : St) (t0 : Q) es w :
  timely func (decorated p st t0) es = true ->
  run func (decorated p st t0) es = Some w ->
  (length (timers w) <= 1)%nat
  /\ forall due, due ∈ timers w ->
       outstanding_call (limiter w) = true
       /\ exists last, last_call (limiter w) = Some last /\ (due == last + p)%Q.
Proof.
  intros Ht Hrun.
  assert (Hinv : timely_inv p w)
    by (eapply timely_run_inv; [apply decorated_timely_inv | exact Ht | exact Hrun]).
  destruct Hinv as (Hp & Hh & _). unfold single_handle in Hh.
  destruct (timers w) as [ | d [ | d' rest]]; simpl.
  - split; [lia | ]. intros due Hin. apply not_elem_of_nil in Hin. contradiction.
  - destruct Hh as (Ho & _ & last & Hlast & Hdue). split; [lia | ].
    intros due Hin. apply list_elem_of_singleton in Hin. subst due.
    split; [exact Ho | ]. exists last. split; [exact Hlast | ].
    rewrite <- Hp. exact Hdue.
  - contradiction.
Qed.

(** The three ways a step goes. *)
Lemma step_invoke_at_once w now a :
  (clock w <= now)%Q ->
  runs_at_once now (limiter w) ->
  step func w (Invoke now a)
  = Some {| limiter := {| last_call := Some now; period := period (limiter w);
                          outstanding_call := false; args := Some a |};
            target := fst (observed func now a (target w));
            timers := timers w;
            clock := now |}.
Proof.
  intros Hc Hr. unfold step. simpl.
  rewrite (proj2 (Qle_bool_iff _ _) Hc).
  rewrite async_wrapper_at_once by exact Hr. reflexivity.
Qed.

Lemma step_invoke_deferred w now a :
  (clock w <= now)%Q ->
  ~ runs_at_once now (limiter w) ->
  step func w (Invoke now a)
  = Some (if outstanding_call (limiter w) then
            {| limiter := set_args a (limiter w);
               target := target w;
               timers := timers w;
               clock := now |}
          else
            {| limiter := set_outstanding_call true (set_args a (limiter w));
               target := target w;
               timers := insert_timer (now + next_call_wait now (limiter w))
                           (timers w);
               clock := now |}).
Proof.
  intros Hc Hr. unfold step. simpl.
  rewrite (proj2 (Qle_bool_iff _ _) Hc).
  rewrite async_wrapper_deferred by exact Hr.
  destruct (outstanding_call (limiter w)); reflexivity.
Qed.

Lemma step_fire w now due rest :
  (clock w <= now)%Q ->
  timers w = due :: rest ->
  (due <= now)%Q ->
  step func w (Fire now)
  = Some {| limiter := {| last_call := Some now; period := period (limiter w);
                          outstanding_call := false; args := args (limiter w) |};
            target := match args (limiter w) with
                      | Some a => fst (observed func now a (target w))
                      | None => target w
                      end;
            timers := rest;
            clock := now |}.
Proof.
  intros Hc Ht Hd. unfold step. simpl.
  rewrite (proj2 (Qle_bool_iff _ _) Hc), Ht, (proj2 (Qle_bool_iff _ _) Hd).
  pose proof (wrapper_limiter (observed func now) now (limiter w) (target w)) as Hl.
  pose proof (wrapper_result (observed func now) now (limiter w) (target w)) as Hr.
  destruct (wrapper (observed func now) now (limiter w) (target w)) as [l [s o]].
  simpl in Hl, Hr. subst l. f_equal. f_equal.
  destruct (args (limiter w)); apply (f_equal fst) in Hr; simpl in Hr; exact Hr.
Qed.

Lemma step_clock w e w' :
  step func w e = Some w' -> (clock w <= event_time e)%Q /\ clock w' = event_time e.
Proof.
  unfold step. destruct (Qle_bool (clock w) (event_time e)) eqn:Hc; [ | discriminate].
  apply Qle_bool_iff in Hc. intros H. split; [exact Hc | ].
  destruct e as [now a | now]; simpl in *.
  - injection H as <-. reflexivity.
  - destruct (timers w) as [ | due rest]; [discriminate | ].
    destruct (Qle_bool due now); [ | discriminate].
    destruct (wrapper (observed func now) now (limiter w) (target w)) as [l [s o]].
    injection H as <-. reflexivity.
Qed.

Lemma insert_timer_not_nil (due : Q) (ts : list Q) : insert_timer due ts <> [].
Proof. destruct ts as [ | t ts]; simpl; [ | destruct (Qlt_bool due t)]; discriminate. Qed.

Lemma step_settled w e w' :
  settled w -> step func w e = Some w' -> settled w'.
Proof.
  intros (Hflag & Hnone & Hdone) Hstep.
  destruct (step_clock _ _ _ Hstep) as [Hc _].
  destruct e as [now a | now]; simpl in Hc.
  - destruct (runs_at_once_dec now (limiter w)) as [Hr | Hr].
    + rewrite (step_invoke_at_once _ _ a Hc Hr) in Hstep. injection Hstep as <-.
      unfold settled, executions. simpl. rewrite observed_log.
      split; [discriminate | ]. split; [discriminate | ].
      intros _ a' Ha. injection Ha as <-. exists now. apply last_snoc.
    + rewrite (step_invoke_deferred _ _ a Hc Hr) in Hstep. injection Hstep as <-.
      unfold settled, executions in *.
      destruct (outstanding_call (limiter w)) eqn:Ho; simpl.
      * split; [intros _; apply Hflag; reflexivity | ].
        split; [discriminate | ].
        intros Ht. exfalso. apply Hflag; [reflexivity | exact Ht].
      * split; [intros _; apply insert_timer_not_nil | ].
        split; [discriminate | ].
        intros Ht. exfalso. apply (insert_timer_not_nil _ _ Ht).
  - pose proof Hstep as Hf. apply step_Fire in Hf as (due & rest & Ht & Hd & _).
    rewrite (step_fire _ _ _ _ Hc Ht Hd) in Hstep. injection Hstep as <-.
    unfold settled, executions in *. simpl.
    split; [discriminate | ].
    destruct (args (limiter w)) as [a | ] eqn:Ha.
    + split; [discriminate | ].
      intros _ a' Ha'. injection Ha' as <-. rewrite observed_log.
      exists now. apply last_snoc.
    + destruct (Hnone eq_refl) as [Hnil _]. congruence.
Qed.

Lemma run_settled es : forall w w',
  settled w -> run func w es = Some w' -> settled w'.
Proof.
  induction es as [ | e es IH]; intros w w' Hs Hrun; simpl in Hrun.
  - injection Hrun as <-. exact Hs.
  - destruct (step func w e) as [w1 | ] eqn:Hstep; [ | discriminate].
    apply (IH w1 w'); [ | exact Hrun]. eapply step_settled; eassumption.
Qed.

Lemma decorated_settled (p : Q) (st : St) (t0 : Q) :
  settled (decorated (Call:=Call) p st t0).
Proof.
  unfold settled, executions. simpl.
  split; [discriminate | ]. split; [intros _; split; reflexivity | ].
  intros _ a Ha. discriminate.
Qed.

(** X4: in every run of a freshly decorated function, overdue handles
    or not, the latest call is never dropped: either a handle is still
    pending, or the last execution received the arguments of the latest
    call.  The flag is never set without a pending handle. *)
Theorem latest_call_never_dropped (p : Q) (st : St) (t0 : Q) es w a :
  run func (decorated p st t0) es = Some w ->
  latest_args None es = Some a ->
  (timers w <> [] \/ exists t, last (executions w) = Some (t, a))
  /\ (outstanding_call (limiter w) = true -> timers w <> []).
Proof.
  intros Hrun Ha.
  destruct (run_settled _ _ _ (decorated_settled p st t0) Hrun) as (Hflag & _ & Hdone).
  split; [ | exact Hflag].
  destruct (timers w) as [ | due rest] eqn:Ht; [right | left; discriminate].
  apply (Hdone eq_refl). rewrite <- Ha.
  eapply run_args in Hrun. exact Hrun.
Qed.

(** X5: whenever a handle is pending in a run of a freshly decorated
    function, the loop can run it at any time from its due time on, and
    running it executes the function once, with the arguments of the
    latest call, records that time as the last execution and clears the
    flag. *)
Theorem pending_handle_runs_latest (p : Q) (st : St) (t0 : Q) es w due rest now :
  run func (decorated p st t0) es = Some w ->
  timers w = due :: rest ->
  (clock w <= now)%Q ->
  (due <= now)%Q ->
  exists w' a,
    step func w (Fire now) = Some w'
    /\ latest_args None es = Some a
    /\ executions w' = executions w ++ [(now, a)]
    /\ last_call (limiter w') = Some now
    /\ outstanding_call (limiter w') = false
    /\ timers w' = rest.
Proof.
  intros Hrun Ht Hc Hd.
  destruct (run_settled _ _ _ (decorated_settled p st t0) Hrun) as (_ & Hnone & _).
  pose proof Hrun as Hargs. eapply run_args in Hargs. simpl in Hargs.
  destruct (args (limiter w)) as [a | ] eqn:Ha.
  - eexists. exists a. split; [apply (step_fire _ _ _ _ Hc Ht Hd) | ].
    split; [symmetry; exact Hargs | ].
    unfold executions. simpl. rewrite Ha, observed_log. repeat split.
  - destruct (Hnone eq_refl) as [Hnil _]. congruence.
Qed.

Lemma run_negative_period es : forall w w',
  (period (limiter w) < 0)%Q ->
  timers w = [] ->
  (forall l, last_call (limiter w) = Some l -> (l <= clock w)%Q) ->
  run func w es = Some w' ->
  timers w' = [] /\ executions w' = executions w ++ invocations es.
Proof.
  induction es as [ | e es IH]; intros w w' Hp Ht Hl Hrun; simpl in Hrun.
  - injection Hrun as <-. simpl. rewrite app_nil_r. split; [exact Ht | reflexivity].
  - destruct (step func w e) as [w1 | ] eqn:Hstep; [ | discriminate].
    destruct (step_clock _ _ _ Hstep) as [Hc _].
    destruct e as [now a | now]; simpl in Hc.
    + assert (Hr : runs_at_once now (limiter w)).
      { unfold runs_at_once. destruct (last_call (limiter w)) as [l | ] eqn:Hlast;
          [right | left; reflexivity].
        exists l. split; [reflexivity | ]. pose proof (Hl l eq_refl) as Hle. times. }
      rewrite (step_invoke_at_once _ _ a Hc Hr) in Hstep. injection Hstep as <-.
      apply IH in Hrun; simpl; [ | exact Hp | exact Ht | ].
      * destruct Hrun as [Ht' He]. split; [exact Ht' | ].
        rewrite He. unfold executions. simpl. rewrite observed_log.
        rewrite <- app_assoc. reflexivity.
      * intros l H. injection H as <-. apply Qle_refl.
    + apply step_Fire in Hstep as (due & rest & Hd & _). congruence.
Qed.

(** X6: a limiter built with a negative period never defers: in every
    run no handle is ever created and every call executes at once, so
    the executions are exactly the calls, in order. *)
Theorem negative_period_never_defers (p : Q) (st : St) (t0 : Q) es w :
  (p < 0)%Q ->
  run func (decorated p st t0) es = Some w ->
  timers w = [] /\ executions w = invocations es.
Proof.
  intros Hp Hrun.
  apply run_negative_period in Hrun; simpl; [exact Hrun | exact Hp | reflexivity | ].
  intros l H. discriminate.
Qed.

(** X7: when a call made no earlier than the last execution is handed
    to [call_later], the delay lies between zero and the period and the
    handle is due exactly one period after the last execution, whatever
    the time of the call; the flag was clear and is now set. *)
Theorem deferred_delay_bounds now a (self : RateLimiter Call) (st : St) last d :
  last_call self = Some last ->
  (last <= now)%Q ->
  call_later (async_wrapper func now a self st) = Some d ->
  (0 <= d)%Q /\ (d <= period self)%Q /\ (now + d == last + period self)%Q
  /\ outstanding_call self = false
  /\ outstanding_call (limiter_after (async_wrapper func now a self st)) = true
  /\ ran (async_wrapper func now a self st) = None.
Proof.
  intros Hlast Hle Hd.
  destruct (runs_at_once_dec now self) as [Hr | Hr].
  - rewrite async_wrapper_at_once in Hd by exact Hr. discriminate.
  - rewrite async_wrapper_deferred in * by exact Hr.
    destruct (outstanding_call self); simpl in *; [discriminate | ].
    injection Hd as <-. unfold next_call_wait. rewrite Hlast.
    assert (Hge : (0 <= period self - (now - last))%Q).
    { apply Qnot_lt_le. intros Hlt. apply Hr. right. exists last.
      split; [exact Hlast | exact Hlt]. }
    repeat split; times.
Qed.

Lemma burst_coalesces (calls : list (Q * Call)) : forall w t a1,
  last_call (limiter w) = Some t ->
  outstanding_call (limiter w) = true ->
  args (limiter w) = Some a1 ->
  burst_within (clock w) (t + period (limiter w)) calls ->
  exists w',
    run func w (map (fun c => Invoke (fst c) (snd c)) calls) = Some w'
    /\ last_call (limiter w') = Some t
    /\ period (limiter w') = period (limiter w)
    /\ outstanding_call (limiter w') = true
    /\ args (limiter w') = Some (last_args a1 calls)
    /\ target w' = target w
    /\ timers w' = timers w
    /\ clock w' = last_time (clock w) calls.
Proof.
  induction calls as [ | [t1 a2] calls IH]; intros w t a1 Hlast Ho Ha Hb.
  - exists w. simpl. repeat split; assumption.
  - destruct Hb as (Hlo & Hhi & Hb). simpl.
    assert (Hr : ~ runs_at_once t1 (limiter w)).
    { intros [H | (l & H & Hlt)]; [congruence | ].
      rewrite Hlast in H. injection H as <-. times. }
    rewrite (step_invoke_deferred _ _ a2 Hlo Hr), Ho.
    destruct (IH {| limiter := set_args a2 (limiter w); target := target w;
                    timers := timers w; clock := t1 |} t a2)
      as (w' & Hrun & H1 & H2 & H3 & H4 & H5 & H6 & H7);
      [exact Hlast | exact Ho | reflexivity | exact Hb | ].
    exists w'. repeat split; assumption.
Qed.

(** X8: a burst collapses into the most recent call.  A first call to
    a freshly decorated function executes at once; any number of further
    calls made within one period of it (at least one) create a single
    handle; when the loop runs that handle, the function executes a
    second and last time, with the arguments of the last call of the
    burst. *)
Theorem burst_collapses_to_latest (p : Q) (st : St) (t0 t : Q) (a : Call)
    (calls : list (Q * Call)) (f : Q) :
  (t0 <= t)%Q ->
  calls <> [] ->
  burst_within t (t + p) calls ->
  (last_time t calls <= f)%Q ->
  (t + p <= f)%Q ->
  exists w,
    run func (decorated p st t0)
      (Invoke t a :: map (fun c => Invoke (fst c) (snd c)) calls ++ [Fire f])
    = Some w
    /\ executions w = [(t, a); (f, last_args a calls)]
    /\ timers w = []
    /\ outstanding_call (limiter w) = false.
Proof.
  intros Ht0 Hne Hb Hf Hp.
  destruct calls as [ | [t1 a1] calls]; [contradiction | clear Hne].
  destruct Hb as (Hlo & Hhi & Hb). simpl in Hf.
  cbn [run map app fst snd last_args].
  rewrite (step_invoke_at_once (decorated p st t0) t a Ht0 (or_introl eq_refl)).
  cbn [decorated limiter target timers clock period RateLimiter_init].
  set (w1 := {| limiter := {| last_call := Some t; period := p;
                              outstanding_call := false; args := Some a |};
                target := fst (observed func t a (st, []));
                timers := [];
                clock := t |}).
  assert (Hr : ~ runs_at_once t1 (limiter w1)).
  { intros [H | (l & H & Hlt)]; [discriminate | ].
    simpl in H, Hlt. injection H as <-. times. }
  rewrite (step_invoke_deferred w1 t1 a1 Hlo Hr).
  cbn [w1 limiter outstanding_call target timers insert_timer].
  match goal with |- context [run func ?w _] => set (w2 := w) end.
  destruct (burst_coalesces calls w2 t a1 eq_refl eq_refl eq_refl Hb)
    as (w3 & Hrun & H1 & H2 & H3 & H4 & H5 & H6 & H7).
  rewrite run_app, Hrun. cbn [run].
  assert (Hc3 : (clock w3 <= f)%Q) by (rewrite H7; exact Hf).
  assert (Hdue : (t1 + (p - (t1 - t)) <= f)%Q) by times.
  rewrite (step_fire w3 f _ [] Hc3 H6 Hdue).
  eexists. split; [reflexivity | ].
  unfold executions. simpl. rewrite H4, H5. simpl. rewrite !observed_log. simpl.
  repeat split.
Qed.

End LimiterRuns.

(** * Further properties of the camera client *)

(** X9: constructing a client creates one new instance and two new
    settings objects, distinct from each other and from every object
    already there; the new client starts with auto exposure on for both
    channels and [needs_update] clear; every existing instance and
    settings object is left as it was. *)
Theorem new_client_is_fresh (cfg : OakCameraClientConfig) (m : store) :
  let m' := fst (OakCameraClient_init cfg m) in
  let self := snd (OakCameraClient_init cfg m) in
  instances m !! self = None
  /\ (forall other, other <> self -> instances m' !! other = instances m !! other)
  /\ (forall r v, heap m !! r = Some v -> heap m' !! r = Some v)
  /\ (exists c, instances m' !! self = Some c
                /\ config c = cfg
                /\ needs_update c = false
                /\ heap m !! _mono_camera_settings c = None
                /\ heap m !! _rgb_camera_settings c = None
                /\ _mono_camera_settings c <> _rgb_camera_settings c)
  /\ rgb_settings_of self m' = Some (mkCameraSettings true 0 0)
  /\ mono_settings_of self m' = Some (mkCameraSettings true 0 0).
Proof.
  unfold OakCameraClient_init, new_settings. simpl.
  set (mono := fresh (dom (heap m))).
  set (h1 := <[mono := mkCameraSettings true 0 0]> (heap m)).
  set (rgb := fresh (dom h1)).
  set (self := fresh (dom (instances m))).
  assert (Hmono : heap m !! mono = None)
    by (apply not_elem_of_dom, is_fresh).
  assert (Hrgb1 : h1 !! rgb = None)
    by (apply not_elem_of_dom, is_fresh).
  assert (Hne : mono <> rgb).
  { intros Heq. rewrite <- Heq in Hrgb1. unfold h1 in Hrgb1.
    rewrite lookup_insert_eq in Hrgb1. discriminate. }
  assert (Hrgb : heap m !! rgb = None).
  { unfold h1 in Hrgb1. rewrite lookup_insert_ne in Hrgb1 by exact Hne. exact Hrgb1. }
  split; [apply not_elem_of_dom, is_fresh | ].
  split; [intros other Ho; apply lookup_insert_ne; congruence | ].
  split.
  { intros r v Hr. unfold h1. rewrite !lookup_insert_ne by congruence. exact Hr. }
  split.
  { eexists. split; [apply lookup_insert_eq | ]. simpl. repeat split; assumption. }
  unfold rgb_settings_of, mono_settings_of. simpl. rewrite lookup_insert_eq. simpl.
  split; [apply lookup_insert_eq | ].
  rewrite lookup_insert_ne by congruence. apply lookup_insert_eq.
Qed.

(** X10: [settings_reply] writes into the objects the two attributes
    refer to, so an accepted reply shows through every reference to
    them: any client (the same or another) whose rgb or mono attribute
    holds the object of [a]'s rgb attribute then reads the echoed rgb
    settings, and one that holds the object of [a]'s mono attribute
    reads the echoed stereo settings unless that object is also [a]'s
    rgb object. *)
Theorem settings_reply_reaches_every_holder a b ca cb reply m :
  instances m !! a = Some ca ->
  instances m !! b = Some cb ->
  status reply = OK ->
  let m' := settings_reply a reply m in
  (_rgb_camera_settings cb = _rgb_camera_settings ca ->
   rgb_settings_of b m' = Some (rgb_settings reply))
  /\ (_mono_camera_settings cb = _rgb_camera_settings ca ->
      mono_settings_of b m' = Some (rgb_settings reply))
  /\ (_mono_camera_settings ca <> _rgb_camera_settings ca ->
      (_rgb_camera_settings cb = _mono_camera_settings ca ->
       rgb_settings_of b m' = Some (stereo_settings reply))
      /\ (_mono_camera_settings cb = _mono_camera_settings ca ->
          mono_settings_of b m' = Some (stereo_settings reply))).
Proof.
  intros Ha Hb Hok m'. subst m'. rewrite (settings_reply_OK _ _ _ _ Ha Hok).
  unfold rgb_settings_of, mono_settings_of. simpl. rewrite Hb. simpl.
  split; [intros ->; apply lookup_insert_eq | ].
  split; [intros ->; apply lookup_insert_eq | ].
  intros Hne. split; intros ->;
    (rewrite lookup_insert_ne by (apply not_eq_sym; exact Hne));
    apply lookup_insert_eq.
Qed.

(** X11: whatever the status of the reply, [settings_reply] changes no
    attribute and no flag of any client, and a client none of whose
    settings objects is one of [a]'s reads the same settings as before. *)
Theorem settings_reply_frame a b cb reply m :
  instances m !! b = Some cb ->
  (forall ca, instances m !! a = Some ca ->
     _rgb_camera_settings cb <> _rgb_camera_settings ca
     /\ _rgb_camera_settings cb <> _mono_camera_settings ca
     /\ _mono_camera_settings cb <> _rgb_camera_settings ca
     /\ _mono_camera_settings cb <> _mono_camera_settings ca) ->
  let m' := settings_reply a reply m in
  instances m' = instances m
  /\ rgb_settings_of b m' = rgb_settings_of b m
  /\ mono_settings_of b m' = mono_settings_of b m.
Proof.
  intros Hb Hdis m'. subst m'. unfold settings_reply.
  destruct (instances m !! a) as [ca | ] eqn:Ha; [ | repeat split].
  destruct (ReplyStatus_eqb (status reply) OK); [ | repeat split].
  destruct (Hdis ca eq_refl) as (H1 & H2 & H3 & H4).
  unfold rgb_settings_of, mono_settings_of. simpl. rewrite Hb. simpl.
  split; [reflexivity | ].
  split; rewrite !lookup_insert_ne by (apply not_eq_sym; assumption); reflexivity.
Qed.

(** X12: updating and then pushing.  Once the body of
    [update_rgb_settings] (or [update_mono_settings]) has run with a
    settings object, [needs_update] is set, and the next [send_settings]
    dispatches the value of that object for the updated channel and the
    unchanged settings of the other channel, and clears [needs_update]. *)
Theorem update_then_send_dispatches_new ch self r c v vm vr cameraControl m :
  instances m !! self = Some c ->
  heap m !! r = Some v ->
  heap m !! _mono_camera_settings c = Some vm ->
  heap m !! _rgb_camera_settings c = Some vr ->
  let m1 := fst (body ch (self, r) m) in
  let request :=
    match ch with
    | Rgb => {| request_stereo_settings := vm; request_rgb_settings := v |}
    | Mono => {| request_stereo_settings := v; request_rgb_settings := vr |}
    end in
  snd (body ch (self, r) m) = Returned
  /\ (needs_update <$> instances m1 !! self) = Some true
  /\ exists m2,
       send_settings self cameraControl m1
       = Some (m2, request, cameraControl request)
       /\ (needs_update <$> instances m2 !! self) = Some false
       /\ heap m2 = heap m.
Proof.
  intros Hc Hr Hm Hrgb.
  destruct ch; simpl; unfold update_rgb_settings, update_mono_settings;
    rewrite Hc; simpl;
    (split; [reflexivity | ]);
    (split; [rewrite lookup_insert_eq; reflexivity | ]);
    unfold send_settings; simpl; rewrite lookup_insert_eq; simpl;
    rewrite ?Hr, ?Hm, ?Hrgb; simpl;
    eexists; (split; [reflexivity | ]); simpl;
    (split; [rewrite lookup_insert_eq; reflexivity | reflexivity]).
Qed.

Lemma body_frame ch self settings m :
  heap (fst (body ch (self, settings) m)) = heap m
  /\ (forall other, other <> self ->
        instances (fst (body ch (self, settings) m)) !! other
        = instances m !! other)
  /\ (forall c, instances m !! self = Some c ->
        instances (fst (body ch (self, settings) m)) !! self
        = Some (match ch with
                | Rgb => set_rgb_camera_settings settings (set_needs_update true c)
                | Mono => set_mono_camera_settings settings (set_needs_update true c)
                end)).
Proof.
  destruct ch; simpl; unfold update_rgb_settings, update_mono_settings;
    destruct (instances m !! self) as [c | ] eqn:Hc; simpl;
    (split; [reflexivity | ]);
    (split; [intros other Ho; rewrite ?lookup_insert_ne by congruence; reflexivity | ]);
    intros c' Hc'; try discriminate; injection Hc' as <-; apply lookup_insert_eq.
Qed.

(** A call made while the flag is set and no more than one period after
    the last execution only stores its arguments. *)
Lemma pending_update_leaves_memory ch now self settings s last :
  outstanding_call (limiter_of self ch s) = true ->
  last_call (limiter_of self ch s) = Some last ->
  (now - last <= period (limiter_of self ch s))%Q ->
  call_update ch now self settings s
  = set_limiter ch (set_args (self, settings) (limiter_of self ch s))
      (memory s) (handles s) s
  /\ memory (call_update ch now self settings s) = memory s.
Proof.
  intros Ho Hlast Hin.
  assert (Hr : ~ runs_at_once now (limiter_of self ch s)).
  { intros [H | (l & H & Hlt)]; [congruence | ].
    rewrite Hlast in H. injection H as <-. apply (Qlt_not_le _ _ Hlt). lra. }
  assert (Hs : call_update ch now self settings s
               = set_limiter ch (set_args (self, settings) (limiter_of self ch s))
                   (memory s) (handles s) s).
  { unfold call_update. rewrite async_wrapper_coalesces by assumption. reflexivity. }
  split; [exact Hs | ]. rewrite Hs. apply memory_set_limiter.
Qed.

Lemma run_handle_memory ch now self s :
  memory (run_handle ch now s)
  = match args (limiter_of self ch s) with
    | Some a => fst (body ch a (memory s))
    | None => memory s
    end.
Proof.
  unfold run_handle.
  pose proof (wrapper_result (body ch) now (limiter_of self ch s) (memory s)) as Hr.
  destruct ch; simpl in *;
    destruct (wrapper _ now _ (memory s)) as [l [m o]]; simpl in *;
    apply (f_equal fst) in Hr; simpl in Hr; subst m;
    match goal with |- context [args ?l] => destruct (args l) end; reflexivity.
Qed.

(** X13: a rate-limited update never touches a settings object, never
    contacts the service and never changes another client: whether the
    call executes at once or is deferred, the settings objects and every
    client other than the one it was called on are as before, and of
    that client only the attribute of the updated channel and
    [needs_update] can change. *)
Theorem rate_limited_update_touches_only_self ch now self settings s :
  let s' := call_update ch now self settings s in
  heap (memory s') = heap (memory s)
  /\ (forall other, other <> self ->
        instances (memory s') !! other = instances (memory s) !! other)
  /\ (forall c, instances (memory s) !! self = Some c ->
        exists c', instances (memory s') !! self = Some c'
                   /\ config c' = config c
                   /\ match ch with
                      | Rgb => _mono_camera_settings c' = _mono_camera_settings c
                      | Mono => _rgb_camera_settings c' = _rgb_camera_settings c
                      end).
Proof.
  intros s'. subst s'. unfold call_update. rewrite memory_set_limiter.
  destruct (runs_at_once_dec now (limiter_of self ch s)) as [Hr | Hr].
  - rewrite async_wrapper_at_once by exact Hr. simpl.
    destruct (body_frame ch self settings (memory s)) as (Hh & Ho & Hs).
    split; [exact Hh | ]. split; [exact Ho | ].
    intros c Hc. eexists. split; [apply (Hs c Hc) | ].
    destruct ch; split; reflexivity.
  - rewrite async_wrapper_deferred by exact Hr.
    assert (Hm : state_after
                   (if outstanding_call (limiter_of self ch s)
                    then {| limiter_after := set_args (self, settings) (limiter_of self ch s);
                            state_after := memory s; call_later := None; ran := None |}
                    else {| limiter_after :=
                              set_outstanding_call true
                                (set_args (self, settings) (limiter_of self ch s));
                            state_after := memory s;
                            call_later := Some (next_call_wait now (limiter_of self ch s));
                            ran := None |}) = memory s)
      by (destruct (outstanding_call (limiter_of self ch s)); reflexivity).
    rewrite Hm. split; [reflexivity | ]. split; [reflexivity | ].
    intros c Hc. exists c. split; [exact Hc | ]. destruct ch; split; reflexivity.
Qed.

(** X14: the limiter of a channel holds one pending call for all
    clients.  While a call of client [a] is pending, a call of another
    client [b] on the same channel within the period replaces it: when
    the handle runs, the settings supplied by [b] are installed in [b]
    and [a] is left exactly as it was, its pending settings never
    installed. *)
Theorem shared_limiter_keeps_latest_client_only ch now a b sa sb ca cb last s :
  a <> b ->
  args (limiter_of a ch s) = Some (a, sa) ->
  outstanding_call (limiter_of a ch s) = true ->
  last_call (limiter_of a ch s) = Some last ->
  (now - last <= period (limiter_of a ch s))%Q ->
  instances (memory s) !! a = Some ca ->
  instances (memory s) !! b = Some cb ->
  let s' := call_update ch now b sb s in
  args (limiter_of a ch s') = Some (b, sb)
  /\ handles s' = handles s
  /\ forall now',
       instances (memory (run_handle ch now' s')) !! a = Some ca
       /\ instances (memory (run_handle ch now' s')) !! b
          = Some (match ch with
                  | Rgb => set_rgb_camera_settings sb (set_needs_update true cb)
                  | Mono => set_mono_camera_settings sb (set_needs_update true cb)
                  end).
Proof.
  intros Hab Hargs Ho Hlast Hin Ha Hb s'.
  destruct (pending_update_leaves_memory ch now b sb s last Ho Hlast Hin)
    as (Hs' & Hmem).
  subst s'. rewrite Hs'.
  rewrite limiter_of_set_limiter, handles_set_limiter.
  split; [reflexivity | ]. split; [reflexivity | ].
  intros now'. rewrite (run_handle_memory ch now' a).
  rewrite limiter_of_set_limiter, memory_set_limiter. simpl.
  destruct (body_frame ch b sb (memory s)) as (_ & Ho' & Hs).
  split; [rewrite <- Ha; apply (Ho' a Hab) | apply (Hs cb Hb)].
Qed.

(** * The server address *)

Lemma split_at_first_colon (a1 a2 d1 d2 : string) :
  no_colon a1 = true -> no_colon a2 = true ->
  a1 +:+ ":" +:+ d1 = a2 +:+ ":" +:+ d2 ->
  a1 = a2 /\ d1 = d2.
Proof.
  revert a2. induction a1 as [ | c1 a1 IH]; intros [ | c2 a2] H1 H2 Heq; simpl in *.
  - injection Heq as Hd. split; [reflexivity | exact Hd].
  - injection Heq as Hc _. subst c2. rewrite Ascii.eqb_refl in H2. discriminate.
  - injection Heq as Hc _. subst c1. rewrite Ascii.eqb_refl in H1. discriminate.
  - injection Heq as Hc Ht. subst c2.
    apply andb_true_iff in H1 as [_ H1]. apply andb_true_iff in H2 as [_ H2].
    destruct (IH a2 H1 H2 Ht) as [-> ->]. split; reflexivity.
Qed.

(** X15: for addresses that hold no colon (host names, IPv4 addresses)
    the composed server address determines the configuration: two
    configurations with the same server address have the same address
    and the same port. *)
Theorem server_address_inj (cfg1 cfg2 : OakCameraClientConfig) :
  no_colon (address cfg1) = true ->
  no_colon (address cfg2) = true ->
  server_address cfg1 = server_address cfg2 ->
  cfg1 = cfg2.
Proof.
  unfold server_address. intros H1 H2 Heq.
  destruct (split_at_first_colon _ _ _ _ H1 H2 Heq) as [Ha Hp].
  apply (inj pretty) in Hp.
  destruct cfg1, cfg2. simpl in *. subst. reflexivity.
Qed.

(** * The camera component of the pipeline example *)

Section AmigaCameraFacts.
Context {Image : Type}.
Variable imdecode : list Byte.byte -> Image.

Lemma forward_with_stream read (self : AmigaCamera (Image:=Image)) streams h :
  stream self = Some h ->
  snd (fst (forward imdecode read self streams)) = streams
  /\ stream (fst (fst (forward imdecode read self streams))) = Some h.
Proof.
  intros Hs. unfold forward. rewrite Hs. destruct (read h); split; reflexivity.
Qed.

Lemma forwards_with_stream reads : forall (self : AmigaCamera (Image:=Image)) streams h,
  stream self = Some h ->
  snd (forwards imdecode reads self streams) = streams
  /\ stream (fst (forwards imdecode reads self streams)) = Some h.
Proof.
  induction reads as [ | read reads IH]; intros self streams h Hs; simpl.
  - split; [reflexivity | exact Hs].
  - destruct (forward_with_stream read self streams h Hs) as [H1 H2].
    destruct (forward imdecode read self streams) as [[self' streams'] o].
    simpl in H1, H2. subst streams'. apply IH. exact H2.
Qed.

(** X16: the camera component opens its stream on the first run of
    [forward] only.  Starting without a stream, after any number of runs
    (at least one), whether the reads returned or raised, exactly one
    stream has been opened, with [every_n = 10], and the component holds
    its handle. *)
Theorem forward_opens_one_stream reads (img0 : option Image) streams :
  reads <> [] ->
  let after := forwards imdecode reads {| stream := None; img := img0 |} streams in
  snd after = streams ++ [{| every_n := 10 |}]
  /\ stream (fst after) = Some (length streams).
Proof.
  intros Hne after. subst after.
  destruct reads as [ | read reads]; [contradiction | ]. simpl.
  destruct (forward imdecode read {| stream := None; img := img0 |} streams)
    as [[self' streams'] o] eqn:Hf.
  assert (Hs : stream self' = Some (length streams)
               /\ streams' = streams ++ [{| every_n := 10 |}]).
  { unfold forward, stream_frames, stub_streamFrames in Hf. simpl in Hf.
    destruct (read (length streams)); injection Hf as <- <- _; split; reflexivity. }
  destruct Hs as [Hs ->].
  apply forwards_with_stream. exact Hs.
Qed.

End AmigaCameraFacts.

(** * The further properties at concrete inputs *)

(** X1 at [timely_trace]: the execution made by the handle at time 1
    carries the arguments of the third call. *)
Lemma executions_carry_latest_args_witness :
  exists w,
    run noop (decorated 1 tt 0) timely_trace = Some w
    /\ (1%Q, 9%nat) ∈ executions w
    /\ exists pre e post,
         timely_trace = pre ++ e :: post
         /\ event_time e = 1%Q
         /\ latest_args None (pre ++ [e]) = Some 9%nat.
Proof.
  destruct (run noop (decorated 1 tt 0) timely_trace) as [w | ] eqn:Hrun;
    [ | vm_compute in Hrun; discriminate].
  assert (Hin : (1%Q, 9%nat) ∈ executions w).
  { pose proof Hrun as Hw. vm_compute in Hw. injection Hw as <-.
    apply list_elem_of_In. simpl. right. left. reflexivity. }
  exists w. split; [reflexivity | ]. split; [exact Hin | ].
  apply (executions_carry_latest_args noop 1 tt 0 timely_trace w 1 9%nat Hrun Hin).
Defined.

(** X2 at [timely_trace]: its two executions, at 0 and at 1. *)
Lemma timely_executions_pairwise_spaced_witness :
  exists w,
    (0 <= 1)%Q
    /\ timely noop (decorated 1 tt 0) timely_trace = true
    /\ run noop (decorated 1 tt 0) timely_trace = Some w
    /\ executions w !! 0%nat = Some (0%Q, 7%nat)
    /\ executions w !! 1%nat = Some (1%Q, 9%nat)
    /\ (0 + 1 <= 1)%Q.
Proof.
  destruct (run noop (decorated 1 tt 0) timely_trace) as [w | ] eqn:Hrun;
    [ | vm_compute in Hrun; discriminate].
  assert (Hp : (0 <= 1)%Q) by (vm_compute; discriminate).
  assert (Ht : timely noop (decorated 1 tt 0) timely_trace = true)
    by (vm_compute; reflexivity).
  assert (Hij : (0 < 1)%nat) by lia.
  assert (H0 : executions w !! 0%nat = Some (0%Q, 7%nat)).
  { pose proof Hrun as Hw. vm_compute in Hw. injection Hw as <-. reflexivity. }
  assert (H1 : executions w !! 1%nat = Some (1%Q, 9%nat)).
  { pose proof Hrun as Hw. vm_compute in Hw. injection Hw as <-. reflexivity. }
  exists w. split; [exact Hp | ]. split; [exact Ht | ]. split; [reflexivity | ].
  split; [exact H0 | ]. split; [exact H1 | ].
  apply (timely_executions_pairwise_spaced noop 1 tt 0 timely_trace w
           0 1 0 7%nat 1 9%nat Hp Ht Hrun Hij H0 H1).
Defined.

(** X3 at [pending_trace]: one handle, due at 1. *)
Lemma timely_handle_due_witness :
  exists w,
    timely noop (decorated 1 tt 0) pending_trace = true
    /\ run noop (decorated 1 tt 0) pending_trace = Some w
    /\ (length (timers w) <= 1)%nat.
Proof.
  destruct (run noop (decorated 1 tt 0) pending_trace) as [w | ] eqn:Hrun;
    [ | vm_compute in Hrun; discriminate].
  assert (Ht : timely noop (decorated 1 tt 0) pending_trace = true)
    by (vm_compute; reflexivity).
  exists w. split; [exact Ht | ]. split; [reflexivity | ].
  apply (timely_handle_due noop 1 tt 0 pending_trace w Ht Hrun).
Defined.

(** X4 at [late_handle_trace], where the third call found the handle
    overdue. *)
Lemma latest_call_never_dropped_witness :
  exists w,
    run noop (decorated 1 tt 0) late_handle_trace = Some w
    /\ latest_args None late_handle_trace = Some 9%nat
    /\ (timers w <> [] \/ exists t, last (executions w) = Some (t, 9%nat)).
Proof.
  destruct (run noop (decorated 1 tt 0) late_handle_trace) as [w | ] eqn:Hrun;
    [ | vm_compute in Hrun; discriminate].
  assert (Ha : latest_args None late_handle_trace = Some 9%nat) by reflexivity.
  exists w. split; [reflexivity | ]. split; [exact Ha | ].
  apply (latest_call_never_dropped noop 1 tt 0 late_handle_trace w 9%nat Hrun Ha).
Defined.

(** X5 at [pending_trace], the handle run at time 2. *)
Lemma pending_handle_runs_latest_witness :
  exists w due rest,
    run noop (decorated 1 tt 0) pending_trace = Some w
    /\ timers w = due :: rest
    /\ (clock w <= 2)%Q
    /\ (due <= 2)%Q
    /\ exists w', step noop w (Fire 2) = Some w'
                  /\ executions w' = executions w ++ [(2%Q, 8%nat)].
Proof.
  destruct (run noop (decorated 1 tt 0) pending_trace) as [w | ] eqn:Hrun;
    [ | vm_compute in Hrun; discriminate].
  destruct (timers w) as [ | due rest] eqn:Ht.
  { exfalso. pose proof Hrun as Hw. vm_compute in Hw. injection Hw as <-.
    discriminate. }
  assert (Hc : (clock w <= 2)%Q).
  { pose proof Hrun as Hw. vm_compute in Hw. injection Hw as <-.
    vm_compute. discriminate. }
  assert (Hd : (due <= 2)%Q).
  { pose proof Hrun as Hw. vm_compute in Hw. injection Hw as <-.
    vm_compute in Ht. injection Ht as <- _. vm_compute. discriminate. }
  exists w, due, rest. split; [reflexivity | ]. split; [exact Ht | ].
  split; [exact Hc | ]. split; [exact Hd | ].
  destruct (pending_handle_runs_latest noop 1 tt 0 pending_trace w due rest 2
              Hrun Ht Hc Hd) as (w' & a & Hs & Ha & He & _).
  exists w'. split; [exact Hs | ].
  simpl in Ha. injection Ha as <-. exact He.
Defined.

(** X6 at a limiter built with period -1 and [quick_trace]. *)
Lemma negative_period_never_defers_witness :
  exists w,
    (- (1) < 0)%Q
    /\ run noop (decorated (- (1)) tt 0) quick_trace = Some w
    /\ timers w = []
    /\ executions w = [(0%Q, 7%nat); (0%Q, 8%nat); (1 # 2, 9%nat)].
Proof.
  destruct (run noop (decorated (- (1)) tt 0) quick_trace) as [w | ] eqn:Hrun;
    [ | vm_compute in Hrun; discriminate].
  assert (Hp : (- (1) < 0)%Q) by (vm_compute; reflexivity).
  exists w. split; [exact Hp | ]. split; [reflexivity | ].
  apply (negative_period_never_defers noop (- (1)) tt 0 quick_trace w Hp Hrun).
Defined.

(** X7 at [executed_at_0], called again half a period later. *)
Lemma deferred_delay_bounds_witness :
  last_call executed_at_0 = Some 0%Q
  /\ (0 <= 1 # 2)%Q
  /\ call_later (async_wrapper noop (1 # 2) 8%nat executed_at_0 tt)
     = Some (1 - ((1 # 2) - 0))%Q
  /\ (0 <= 1 - ((1 # 2) - 0))%Q
  /\ (1 - ((1 # 2) - 0) <= period executed_at_0)%Q.
Proof.
  assert (H1 : last_call executed_at_0 = Some 0%Q) by reflexivity.
  assert (H2 : (0 <= 1 # 2)%Q) by (vm_compute; discriminate).
  assert (H3 : call_later (async_wrapper noop (1 # 2) 8%nat executed_at_0 tt)
               = Some (1 - ((1 # 2) - 0))%Q) by reflexivity.
  split; [exact H1 | ]. split; [exact H2 | ]. split; [exact H3 | ].
  destruct (deferred_delay_bounds noop (1 # 2) 8%nat executed_at_0 tt 0
              (1 - ((1 # 2) - 0))%Q H1 H2 H3) as (Ha & Hb & _).
  split; [exact Ha | exact Hb].
Defined.

(** X8: a call at 0, two more within the period, the handle run at 1. *)
Lemma burst_collapses_to_latest_witness :
  (0 <= 0)%Q
  /\ [(1 # 2, 8%nat); (3 # 4, 9%nat)] <> []
  /\ burst_within 0 (0 + 1) [(1 # 2, 8%nat); (3 # 4, 9%nat)]
  /\ (last_time 0 [(1 # 2, 8%nat); (3 # 4, 9%nat)] <= 1)%Q
  /\ (0 + 1 <= 1)%Q
  /\ exists w,
       run noop (decorated 1 tt 0)
         (Invoke 0 7%nat
          :: map (fun c => Invoke (fst c) (snd c)) [(1 # 2, 8%nat); (3 # 4, 9%nat)]
             ++ [Fire 1])
       = Some w
       /\ executions w = [(0%Q, 7%nat); (1%Q, 9%nat)].
Proof.
  assert (H1 : (0 <= 0)%Q) by (vm_compute; discriminate).
  assert (H2 : [(1 # 2, 8%nat); (3 # 4, 9%nat)] <> []) by discriminate.
  assert (H3 : burst_within 0 (0 + 1) [(1 # 2, 8%nat); (3 # 4, 9%nat)])
    by (simpl; repeat split; vm_compute; discriminate).
  assert (H4 : (last_time 0 [(1 # 2, 8%nat); (3 # 4, 9%nat)] <= 1)%Q)
    by (vm_compute; discriminate).
  assert (H5 : (0 + 1 <= 1)%Q) by (vm_compute; discriminate).
  split; [exact H1 | ]. split; [exact H2 | ]. split; [exact H3 | ].
  split; [exact H4 | ]. split; [exact H5 | ].
  destruct (burst_collapses_to_latest noop 1 tt 0 0 7%nat
              [(1 # 2, 8%nat); (3 # 4, 9%nat)] 1 H1 H2 H3 H4 H5)
    as (w & Hrun & He & _).
  exists w. split; [exact Hrun | exact He].
Defined.

(** X10 at [sharing_clients]: the reply accepted for the first client
    shows in the rgb settings of the second. *)
Lemma settings_reply_reaches_every_holder_witness :
  exists ca cb,
    instances (fst sharing_clients) !! fst (snd sharing_clients) = Some ca
    /\ instances (fst sharing_clients) !! snd (snd sharing_clients) = Some cb
    /\ status ok_reply = OK
    /\ _rgb_camera_settings cb = _rgb_camera_settings ca
    /\ rgb_settings_of (snd (snd sharing_clients))
         (settings_reply (fst (snd sharing_clients)) ok_reply (fst sharing_clients))
       = Some (rgb_settings ok_reply).
Proof.
  destruct (instances (fst sharing_clients) !! fst (snd sharing_clients))
    as [ca | ] eqn:Ha; [ | vm_compute in Ha; discriminate].
  destruct (instances (fst sharing_clients) !! snd (snd sharing_clients))
    as [cb | ] eqn:Hb; [ | vm_compute in Hb; discriminate].
  assert (Hok : status ok_reply = OK) by reflexivity.
  assert (Heq : _rgb_camera_settings cb = _rgb_camera_settings ca).
  { pose proof Ha as Ha'. pose proof Hb as Hb'. vm_compute in Ha', Hb'.
    injection Ha' as <-. injection Hb' as <-. reflexivity. }
  exists ca, cb. split; [reflexivity | ]. split; [reflexivity | ].
  split; [exact Hok | ]. split; [exact Heq | ].
  destruct (settings_reply_reaches_every_holder
              (fst (snd sharing_clients)) (snd (snd sharing_clients))
              ca cb ok_reply (fst sharing_clients) Ha Hb Hok) as (H & _).
  apply H. exact Heq.
Defined.

(** X11 at [two_clients]: a reply for the first client leaves the
    second as it was. *)
Lemma settings_reply_frame_witness :
  exists cb,
    instances (memory (fst two_clients)) !! snd (snd two_clients) = Some cb
    /\ rgb_settings_of (snd (snd two_clients))
         (settings_reply (fst (snd two_clients)) ok_reply (memory (fst two_clients)))
       = rgb_settings_of (snd (snd two_clients)) (memory (fst two_clients)).
Proof.
  destruct (instances (memory (fst two_clients)) !! snd (snd two_clients))
    as [cb | ] eqn:Hb; [ | vm_compute in Hb; discriminate].
  exists cb. split; [reflexivity | ].
  assert (Hdis : forall ca,
            instances (memory (fst two_clients)) !! fst (snd two_clients) = Some ca ->
            _rgb_camera_settings cb <> _rgb_camera_settings ca
            /\ _rgb_camera_settings cb <> _mono_camera_settings ca
            /\ _mono_camera_settings cb <> _rgb_camera_settings ca
            /\ _mono_camera_settings cb <> _mono_camera_settings ca).
  { intros ca Ha. pose proof Hb as Hb'. vm_compute in Ha, Hb'.
    injection Ha as <-. injection Hb' as <-. simpl. repeat split; discriminate. }
  destruct (settings_reply_frame (fst (snd two_clients)) (snd (snd two_clients)) cb
              ok_reply (memory (fst two_clients)) Hb Hdis) as (_ & H & _).
  exact H.
Defined.

(** X12 at [one_client], its rgb attribute given its mono object. *)
Lemma update_then_send_dispatches_new_witness :
  exists c v,
    instances (fst one_client) !! snd one_client = Some c
    /\ heap (fst one_client) !! _mono_camera_settings c = Some v
    /\ heap (fst one_client) !! _rgb_camera_settings c = Some v
    /\ snd (body Rgb (snd one_client, _mono_camera_settings c) (fst one_client))
       = Returned.
Proof.
  destruct (instances (fst one_client) !! snd one_client) as [c | ] eqn:Hc;
    [ | vm_compute in Hc; discriminate].
  assert (Hm : heap (fst one_client) !! _mono_camera_settings c
               = Some (mkCameraSettings true 0 0)).
  { pose proof Hc as Hc'. vm_compute in Hc'. injection Hc' as <-. reflexivity. }
  assert (Hr : heap (fst one_client) !! _rgb_camera_settings c
               = Some (mkCameraSettings true 0 0)).
  { pose proof Hc as Hc'. vm_compute in Hc'. injection Hc' as <-. reflexivity. }
  exists c, (mkCameraSettings true 0 0).
  split; [reflexivity | ]. split; [exact Hm | ]. split; [exact Hr | ].
  destruct (update_then_send_dispatches_new Rgb (snd one_client)
              (_mono_camera_settings c) c _ _ _ service_adjusts (fst one_client)
              Hc Hm Hm Hr) as (H & _).
  exact H.
Defined.

(** X14 at [first_client_pending]: the second client calls half a
    period after the execution. *)
Lemma shared_limiter_keeps_latest_client_only_witness :
  exists ca cb,
    fst (snd first_client_pending) <> snd (snd first_client_pending)
    /\ args (limiter_of (fst (snd first_client_pending)) Rgb (fst first_client_pending))
       = Some (fst (snd first_client_pending), 3%positive)
    /\ outstanding_call
         (limiter_of (fst (snd first_client_pending)) Rgb (fst first_client_pending))
       = true
    /\ last_call
         (limiter_of (fst (snd first_client_pending)) Rgb (fst first_client_pending))
       = Some 0%Q
    /\ ((1 # 2) - 0
        <= period (limiter_of (fst (snd first_client_pending)) Rgb
                     (fst first_client_pending)))%Q
    /\ instances (memory (fst first_client_pending)) !! fst (snd first_client_pending)
       = Some ca
    /\ instances (memory (fst first_client_pending)) !! snd (snd first_client_pending)
       = Some cb
    /\ instances
         (memory
            (run_handle Rgb 1
               (call_update Rgb (1 # 2) (snd (snd first_client_pending)) 4%positive
                  (fst first_client_pending))))
       !! fst (snd first_client_pending) = Some ca.
Proof.
  destruct (instances (memory (fst first_client_pending))
              !! fst (snd first_client_pending)) as [ca | ] eqn:Ha;
    [ | vm_compute in Ha; discriminate].
  destruct (instances (memory (fst first_client_pending))
              !! snd (snd first_client_pending)) as [cb | ] eqn:Hb;
    [ | vm_compute in Hb; discriminate].
  assert (H1 : fst (snd first_client_pending) <> snd (snd first_client_pending))
    by (vm_compute; discriminate).
  assert (H2 : args (limiter_of (fst (snd first_client_pending)) Rgb
                       (fst first_client_pending))
               = Some (fst (snd first_client_pending), 3%positive)) by reflexivity.
  assert (H3 : outstanding_call
                 (limiter_of (fst (snd first_client_pending)) Rgb
                    (fst first_client_pending)) = true) by reflexivity.
  assert (H4 : last_call
                 (limiter_of (fst (snd first_client_pending)) Rgb
                    (fst first_client_pending)) = Some 0%Q) by reflexivity.
  assert (H5 : ((1 # 2) - 0
                <= period (limiter_of (fst (snd first_client_pending)) Rgb
                             (fst first_client_pending)))%Q)
    by (vm_compute; discriminate).
  exists ca, cb. split; [exact H1 | ]. split; [exact H2 | ]. split; [exact H3 | ].
  split; [exact H4 | ]. split; [exact H5 | ]. split; [reflexivity | ].
  split; [reflexivity | ].
  destruct (shared_limiter_keeps_latest_client_only Rgb (1 # 2)
              (fst (snd first_client_pending)) (snd (snd first_client_pending))
              3%positive 4%positive ca cb 0 (fst first_client_pending)
              H1 H2 H3 H4 H5 Ha Hb) as (_ & _ & H).
  apply (H 1%Q).
Defined.

(** X15 at [localhost]. *)
Lemma server_address_inj_witness :
  no_colon (address localhost) = true
  /\ server_address localhost = server_address {| port := 50051; address := "localhost" |}
  /\ localhost = {| port := 50051; address := "localhost" |}.
Proof.
  assert (H1 : no_colon (address localhost) = true) by reflexivity.
  assert (H2 : server_address localhost
               = server_address {| port := 50051; address := "localhost" |})
    by reflexivity.
  split; [exact H1 | ]. split; [exact H2 | ].
  apply (server_address_inj localhost {| port := 50051; address := "localhost" |}
           H1 H1 H2).
Defined.

(** X16 at [two_reads], with no stream open before. *)
Lemma forward_opens_one_stream_witness :
  two_reads <> []
  /\ snd (forwards (fun data => data) two_reads {| stream := None; img := None |} [])
     = [] ++ [{| every_n := 10 |}].
Proof.
  assert (H : two_reads <> []) by discriminate.
  split; [exact H | ].
  apply (forward_opens_one_stream (fun data => data) two_reads None [] H).
Defined.
